(** * fpcalc-song-detection: the correlation engine of [correlation.py]

    A shallow embedding of the fingerprint-correlation and match-detection
    code of [correlation.py] (functions [correlation], [cross_correlation],
    [compare], [max_index], [get_max_corr], [is_match] and [correlate]),
    followed by the properties of the specification stated over it.

    Modelling conventions.
    - Python integers (and the [numpy.int64] offsets, whose range is never
      left for lists that fit in memory) are [Z]; list lengths are [nat].
    - Python floats are modelled by exact rationals [Q]: every float the
      engine produces is a quotient of two small integers, and the
      properties below are statements about those quotients.
    - A call that may raise returns [result A := exn + A]; [None] is the
      [None] of [option].
    - The external collaborators of [correlate] (ffprobe, ffmpeg/fpcalc, the
      fingerprint files) are variables of a section; those that can fail
      return a [result]. *)

From Stdlib Require Import ZArith QArith Qfield List Bool Lia String Ascii.
From Stdlib Require Import Sorting.Permutation Sorting.Sorted.
From Stdlib Require DecimalString.
Import ListNotations.

Local Open Scope Z_scope.

(* ================================================================= *)
(** * Python primitives used by the module *)

Module Py.

(** The exceptions the engine can raise.  [raise Exception(msg)] is
    [Exception msg]; the other constructors are the built-in errors raised
    by the operations the module uses. *)
Inductive exn : Type :=
| Exception (msg : string)
| TypeError
| IndexError
| ZeroDivisionError.

Definition result (A : Type) : Type := (exn + A)%type.

(** [return a] and [raise e]. *)
Abbreviation ret a := (@inr exn _ a) (only parsing).
Abbreviation raise e := (@inl exn _ e) (only parsing).

Definition bind {A B} (m : result A) (k : A -> result B) : result B :=
  match m with
  | inl e => inl e
  | inr a => k a
  end.

(** [len(l)] *)
Definition len {A} (l : list A) : Z := Z.of_nat (List.length l).

(** [l[n:]] and [l[:n]] for a non-negative [n]. *)
Definition slice_from {A} (l : list A) (n : Z) : list A := skipn (Z.to_nat n) l.
Definition slice_to {A} (l : list A) (n : Z) : list A := firstn (Z.to_nat n) l.

(** [l[i]] for an index in range (the engine only uses non-negative ones). *)
Definition index {A} (l : list A) (i : nat) : result A :=
  match nth_error l i with
  | Some a => ret a
  | None => raise IndexError
  end.

(** Number of binary digits 1 of a positive number. *)
Fixpoint ones (p : positive) : Z :=
  match p with
  | xH => 1
  | xO p' => ones p'
  | xI p' => 1 + ones p'
  end.

(** [bin(n).count("1")]: [bin] writes the magnitude of [n] in base two
    after the prefix [0b] (or [-0b]). *)
Definition bin_count_1 (n : Z) : Z :=
  match n with
  | Z0 => 0
  | Zpos p => ones p
  | Zneg p => ones p
  end.

(** [start, start + step, ...], [n] terms. *)
Fixpoint progression (start step : Z) (n : nat) : list Z :=
  match n with
  | O => []
  | S n' => start :: progression (start + step) step n'
  end.

(** Number of terms of [range(start, stop, step)] and of
    [numpy.arange(start, stop, step)] on integers:
    [max(0, ceil((stop - start) / step))]. *)
Definition range_len (start stop step : Z) : nat :=
  Z.to_nat (- ((start - stop) / step)).

(** [numpy.arange(start, stop, step)] on integers; a zero step is refused
    with an exception (its class depends on the numpy version). *)
Definition arange (start stop step : Z) : result (list Z) :=
  if step =? 0 then raise ZeroDivisionError
  else ret (progression start step (range_len start stop step)).

(** [range(start, stop, step)] for a literal non-zero [step]. *)
Definition range (start stop step : Z) : list Z :=
  progression start step (range_len start stop step).

(** ["%i" % n] *)
Definition fmt_i (n : Z) : string :=
  DecimalString.NilZero.string_of_int (Z.to_int n).

(** [s.replace(old, new)] for a non-empty [old]: every occurrence, leftmost
    first, without overlap.  [skip] counts the characters of the occurrence
    just replaced that are still to be dropped. *)
Fixpoint replace_from (old new s : string) (skip : nat) : string :=
  match s with
  | EmptyString => EmptyString
  | String c s' =>
      match skip with
      | S k => replace_from old new s' k
      | O =>
          if String.prefix old s
          then (new ++ replace_from old new s' (String.length old - 1))%string
          else String c (replace_from old new s' 0)
      end
  end.

Definition replace (s old new : string) : string := replace_from old new s 0.

(** [list.sort(key=...)] is stable: an element is inserted before the first
    element with a larger or equal key that followed it in the list. *)
Fixpoint sort_insert {A} (key : A -> Z) (x : A) (l : list A) : list A :=
  match l with
  | [] => [x]
  | y :: l' => if key x <=? key y then x :: l else y :: sort_insert key x l'
  end.

Definition sort {A} (key : A -> Z) (l : list A) : list A :=
  fold_right (sort_insert key) [] l.

End Py.

Import Py.

Declare Scope py_scope.
Notation "x <- m ;; k" := (bind m (fun x => k))
  (at level 61, m at next level, right associativity) : py_scope.
Notation "' p <- m ;; k" := (bind m (fun p => k))
  (at level 61, p pattern, m at next level, right associativity) : py_scope.
Local Open Scope py_scope.

(* ================================================================= *)
(** * Module constants *)

(** seconds to sample audio file for *)
Definition sample_time : Z := 500.
(** number of points to scan cross correlation over *)
Definition span : Z := 150.
(** step size (in points) of cross correlation *)
Definition step : Z := 1.
(** minimum number of points that must overlap in cross correlation *)
Definition min_overlap : Z := 20.

(* ================================================================= *)
(** * [correlation] *)

(** The message of the exception raised on empty input. *)
Definition EmptyInputError : exn := Exception "Empty lists cannot be correlated.".

(** The body of [for i in range(len(listx)): covariance += ...]. *)
Definition covariance_step (listx listy : list Z) (covariance : Z) (i : nat) : Z :=
  covariance + (32 - bin_count_1 (Z.lxor (nth i listx 0) (nth i listy 0))).

Definition correlation (listx listy : list Z) : result Q :=
  if (len listx =? 0) || (len listy =? 0) then raise EmptyInputError
  else
    let '(listx, listy) :=
      if len listx >? len listy then (slice_to listx (len listy), listy)
      else if len listx <? len listy then (listx, slice_to listy (len listx))
      else (listx, listy) in
    let covariance := fold_left (covariance_step listx listy) (seq 0 (List.length listx)) 0 in
    let covariance := (inject_Z covariance / inject_Z (len listx))%Q in
    ret (covariance / 32)%Q.

(* ================================================================= *)
(** * [cross_correlation] *)

Definition cross_correlation (listx listy : list Z) (offset : Z) : result (option Q) :=
  let '(listx, listy) :=
    if offset >? 0 then
      let listx := slice_from listx offset in
      let listy := slice_to listy (len listx) in
      (listx, listy)
    else if offset <? 0 then
      let offset := - offset in
      let listy := slice_from listy offset in
      let listx := slice_to listx (len listy) in
      (listx, listy)
    else (listx, listy) in
  if Z.min (len listx) (len listy) <? min_overlap then ret None
  else c <- correlation listx listy ;; ret (Some c).

(* ================================================================= *)
(** * [compare] *)

(** The message built with ['span >= sample size: %i >= %i\n' % (...)]. *)
Definition span_message (span limit : Z) : string :=
  ("span >= sample size: " ++ fmt_i span ++ " >= " ++ fmt_i limit
   ++ String (ascii_of_nat 10) "Reduce span, reduce crop or increase sample_time.")%string.

Definition SpanTooLargeError (span limit : Z) : exn :=
  Exception (span_message span limit).

(** [for offset in ...: corr_xy.append(cross_correlation(listx, listy, offset))] *)
Fixpoint compare_loop (listx listy : list Z) (offsets : list Z)
    (corr_xy : list (option Q)) : result (list (option Q)) :=
  match offsets with
  | [] => ret corr_xy
  | offset :: offsets' =>
      c <- cross_correlation listx listy offset ;;
      compare_loop listx listy offsets' (corr_xy ++ [c])
  end.

Definition compare (listx listy : list Z) (span step : Z) : result (list (option Q)) :=
  if span >? Z.min (len listx) (len listy) then
    raise (SpanTooLargeError span (Z.min (len listx) (len listy)))
  else
    offsets <- arange (- span) (span + 1) step ;;
    compare_loop listx listy offsets [].

(* ================================================================= *)
(** * [max_index] and [get_max_corr] *)

(** [a > b] on the entries of a score list: ordering a [None] is a
    [TypeError]. *)
Definition gt (a b : option Q) : result bool :=
  match a, b with
  | Some a, Some b => ret (negb (Qle_bool a b))
  | _, _ => raise TypeError
  end.

(** [for i, value in enumerate(listx): ...], [i] being the index of the head
    of the remaining list. *)
Fixpoint max_index_loop (rest : list (option Q)) (i : nat)
    (max_value : option Q) (max_index : nat) : result nat :=
  match rest with
  | [] => ret max_index
  | value :: rest' =>
      b <- gt value max_value ;;
      if b then max_index_loop rest' (S i) value i
      else max_index_loop rest' (S i) max_value max_index
  end.

Definition max_index (listx : list (option Q)) : result nat :=
  max_value <- index listx 0 ;;
  max_index_loop listx 0 max_value 0.

(** [span] and [step] are the module constants: the function has no such
    parameters (and never reads its [threshold] parameter, left out here). *)
Definition get_max_corr (corr : list (option Q)) : result (nat * Z) :=
  max_corr_index <- max_index corr ;;
  let max_corr_offset := - span + Z.of_nat max_corr_index * step in
  ret (max_corr_index, max_corr_offset).

(* ================================================================= *)
(** * [is_match] *)

(** [c >= threshold]: comparing [None] with a float is a [TypeError]. *)
Definition ge (c : option Q) (threshold : Q) : result bool :=
  match c with
  | Some c => ret (Qle_bool threshold c)
  | None => raise TypeError
  end.

(** [[(c, o) for c, o in corr_scores if c >= threshold]] *)
Fixpoint high_filter (corr_scores : list (option Q * Z)) (threshold : Q)
    : result (list (option Q * Z)) :=
  match corr_scores with
  | [] => ret []
  | (c, o) :: rest =>
      b <- ge c threshold ;;
      high <- high_filter rest threshold ;;
      ret (if b then (c, o) :: high else high)
  end.

(** The inner loop [for j in range(i + 1, len(offsets))], [js] being the
    indices still to visit; leaving the recursion is the [break]. *)
Fixpoint cluster_loop (offsets : list Z) (max_offset_deviation : Z)
    (js : list nat) (cluster : list Z) : list Z :=
  match js with
  | [] => cluster
  | j :: js' =>
      if nth j offsets 0 - hd 0 cluster <=? max_offset_deviation
      then cluster_loop offsets max_offset_deviation js' (cluster ++ [nth j offsets 0])
      else cluster
  end.

(** The outer loop [for i in range(len(offsets))]. *)
Fixpoint match_loop (offsets : list Z) (min_consistent_offsets max_offset_deviation : Z)
    (starts : list nat) : bool :=
  match starts with
  | [] => false
  | i :: starts' =>
      let cluster :=
        cluster_loop offsets max_offset_deviation
          (seq (S i) (List.length offsets - S i)) [nth i offsets 0] in
      if len cluster >=? min_consistent_offsets then true
      else match_loop offsets min_consistent_offsets max_offset_deviation starts'
  end.

Definition is_match (corr_scores : list (option Q * Z)) (threshold : Q)
    (min_consistent_offsets max_offset_deviation : Z) : result bool :=
  high_corrs <- high_filter corr_scores threshold ;;
  if len high_corrs <? min_consistent_offsets then ret false
  else
    let high_corrs := sort snd high_corrs in
    let offsets := map snd high_corrs in
    ret (match_loop offsets min_consistent_offsets max_offset_deviation
           (seq 0 (List.length offsets))).

(* ================================================================= *)
(** * [correlate] *)

(** An entry of [found_songs]: (song name, confidence, window offset). *)
Definition found_song : Type := (string * Q * Z)%type.

(** What one pass of the inner loop body does: [continue] before the sweep,
    the [else] branch, or the [if is_match(...)] branch, which appends
    [found] and prints [max_corr_offset]. *)
Inductive outcome : Type :=
| Skipped
| NoMatch
| Matched (found : found_song) (max_corr_offset : Z).

(** [e * 100.0] for an entry of the score list. *)
Definition times_100 (c : option Q) : result Q :=
  match c with
  | Some c => ret (c * 100)%Q
  | None => raise TypeError
  end.

Definition span_to_use (source_fingerprint short_fingerprint : list Z) : Z :=
  Z.min span (Z.min (len source_fingerprint) (len short_fingerprint) - 1).

(** The end of the inner loop body of [correlate], from
    [corr_scores = list(zip(corr, offsets))] on. *)
Definition match_verdict (fingerprints_dir : string) (offset : Z)
    (short_clip_fp_path : string) (corr : list (option Q)) (offsets : list Z)
    : result outcome :=
  let corr_scores := combine corr offsets in
  m <- is_match corr_scores (60 # 100) 1 5 ;;
  if (m : bool) then
    '(max_corr_index, max_corr_offset) <- get_max_corr corr ;;
    best <- index corr max_corr_index ;;
    confidence <- times_100 best ;;
    let name :=
      replace (replace short_clip_fp_path (fingerprints_dir ++ "/") "") ".fpcalc" "" in
    ret (Matched (name, confidence, offset) max_corr_offset)
  else ret NoMatch.

Section Correlate.

(** [calculate_fingerprint(filename, offset, duration)]: runs ffmpeg and
    fpcalc; any failure is an exception. *)
Variable calculate_fingerprint : string -> Z -> Z -> result (list Z).
(** [get_fingerprint(filename)]: reads and parses a fingerprint file (the
    files do not change during a scan, so the cache is not visible). *)
Variable get_fingerprint : string -> result (list Z).
(** [get_fingerprints(dirname)]: the files under the directory. *)
Variable get_fingerprints : string -> list string.
(** [get_audio_duration(filename)], in seconds: runs ffprobe and converts
    its output; any failure is an exception, which nothing catches. *)
Variable get_audio_duration : string -> result Z.

(** The body of [for short_clip_fp_path in fingerprints], with the local
    [step] of [correlate]. *)
Definition correlate_pair (fingerprints_dir : string) (step : Z) (offset : Z)
    (source_fingerprint : list Z) (short_clip_fp_path : string) : result outcome :=
  short_fingerprint <- get_fingerprint short_clip_fp_path ;;
  if (len short_fingerprint =? 0) || (len source_fingerprint =? 0) then ret Skipped
  else
    let span_to_use := span_to_use source_fingerprint short_fingerprint in
    if span_to_use <? min_overlap then ret Skipped
    else
      corr <- compare source_fingerprint short_fingerprint span_to_use step ;;
      offsets <- arange (- span_to_use) (span_to_use + 1) step ;;
      match_verdict fingerprints_dir offset short_clip_fp_path corr offsets.

Fixpoint references_loop (fingerprints_dir : string) (step offset : Z)
    (source_fingerprint : list Z) (fingerprints : list string)
    (found_songs : list found_song) : result (list found_song) :=
  match fingerprints with
  | [] => ret found_songs
  | short_clip_fp_path :: fingerprints' =>
      o <- correlate_pair fingerprints_dir step offset source_fingerprint short_clip_fp_path ;;
      let found_songs :=
        match o with
        | Matched found _ => found_songs ++ [found]
        | _ => found_songs
        end in
      references_loop fingerprints_dir step offset source_fingerprint fingerprints' found_songs
  end.

(** [for offset in range(0, duration - window + 1, step)], over the offsets
    still to visit; [try ... except Exception: ... continue] skips the
    window. *)
Fixpoint windows_loop (source_file fingerprints_dir : string) (window step : Z)
    (fingerprints : list string) (offsets : list Z)
    (found_songs : list found_song) : result (list found_song) :=
  match offsets with
  | [] => ret found_songs
  | offset :: offsets' =>
      match calculate_fingerprint source_file offset window with
      | inl _ =>
          windows_loop source_file fingerprints_dir window step fingerprints offsets' found_songs
      | inr source_fingerprint =>
          found_songs <-
            references_loop fingerprints_dir step offset source_fingerprint
              fingerprints found_songs ;;
          windows_loop source_file fingerprints_dir window step fingerprints offsets' found_songs
      end
  end.

Definition correlate (source_file fingerprints_dir : string) : result (list found_song) :=
  let fingerprints := get_fingerprints fingerprints_dir in
  duration <- get_audio_duration source_file ;;
  let window := sample_time in
  let step := 10 in
  let found_songs := [] in
  windows_loop source_file fingerprints_dir window step fingerprints
    (range 0 (duration - window + 1) step) found_songs.

End Correlate.

(* ================================================================= *)
(** * Definitions that follow the words of the specification *)

Module Spec.

(** The population count of a [width]-bit frame: the number of bit
    positions below [width] that are set. *)
Definition set_bits (n : Z) (width : nat) : Z :=
  Z.of_nat (List.length (filter (Z.testbit n) (map Z.of_nat (seq 0 width)))).

(** Per-frame agreement of two 32-bit frames:
    [(32 - popcount(a XOR b)) / 32]. *)
Definition frame_agreement (a b : Z) : Q :=
  (inject_Z (32 - set_bits (Z.lxor a b) 32) / 32)%Q.

Definition Qsum (l : list Q) : Q := fold_right Qplus 0%Q l.

(** Both sequences cut to the length of the shorter one, then the
    arithmetic mean of the per-frame agreement of the aligned pairs. *)
Definition similarity (x y : list Z) : Q :=
  let n := Nat.min (List.length x) (List.length y) in
  let pairs := combine (firstn n x) (firstn n y) in
  (Qsum (map (fun p => frame_agreement (fst p) (snd p)) pairs)
   / inject_Z (Z.of_nat n))%Q.

(** The longest prefix whose elements all pass the test. *)
Fixpoint take_while {A} (f : A -> bool) (l : list A) : list A :=
  match l with
  | [] => []
  | a :: l' => if f a then a :: take_while f l' else []
  end.

(** The cluster started at index [i] of the sorted offsets: the anchor
    [offsets[i]], then the following entries for as long as their distance
    to the anchor is at most [max_offset_deviation]. *)
Definition cluster_at (offsets : list Z) (max_offset_deviation : Z) (i : nat) : list Z :=
  match skipn i offsets with
  | [] => []
  | anchor :: rest =>
      anchor :: take_while (fun o => o - anchor <=? max_offset_deviation) rest
  end.

(** The pairs kept by the threshold. *)
Definition high (pairs : list (Q * Z)) (threshold : Q) : list (Q * Z) :=
  filter (fun p => Qle_bool threshold (fst p)) pairs.

(** The verdict on sorted offsets: some starting index has a cluster of at
    least [min_consistent_offsets] members. *)
Definition some_cluster (offsets : list Z) (min_consistent_offsets max_offset_deviation : Z) : Prop :=
  exists i, (i < List.length offsets)%nat /\
    min_consistent_offsets <= len (cluster_at offsets max_offset_deviation i).

End Spec.

(** A score list without absent entries, as [is_match] and [max_index]
    receive it. *)
Definition present (pairs : list (Q * Z)) : list (option Q * Z) :=
  map (fun p => (Some (fst p), snd p)) pairs.

(* ================================================================= *)
(** * Auxiliary definitions of the proofs *)

(** The integer score of a frame pair, and sums of integers. *)
Definition frame_score (p : Z * Z) : Z := 32 - bin_count_1 (Z.lxor (fst p) (snd p)).

Definition Zsum (l : list Z) : Z := fold_right Z.add 0 l.

(** The score list pairs up, in order, with the offsets visited. *)
Definition scored_at (listx listy : list Z) (offset : Z) (c : option Q) : Prop :=
  cross_correlation listx listy offset = inr c.

(** A list is in ascending order of its keys. *)
Definition key_sorted {A} (key : A -> Z) (l : list A) : Prop :=
  StronglySorted Z.le (map key l).

(** The offsets [is_match] clusters, for a score list without absent
    entries. *)
Definition sorted_high_offsets (pairs : list (Q * Z)) (threshold : Q) : list Z :=
  map snd (sort snd (present (Spec.high pairs threshold))).

(** [i] is the index of the first maximum of [scores]. *)
Definition first_max (scores : list Q) (i : nat) : Prop :=
  (i < List.length scores)%nat
  /\ (forall j, (j < List.length scores)%nat -> (nth j scores 0 <= nth i scores 0)%Q)
  /\ (forall j, (j < i)%nat -> (nth j scores 0 < nth i scores 0)%Q).

(** A fingerprint used in the examples: the frames [0, 1, ..., n - 1]. *)
Definition ramp (n : nat) : list Z := map Z.of_nat (seq 0 n).

(* ================================================================= *)
(** * A concrete scan *)

Module Example.

(** A recording of 520 seconds: windows at 0, 10 and 20 seconds; the
    fingerprint request of the window at 10 seconds fails. *)
Definition calculate_fingerprint (filename : string) (offset duration : Z)
    : result (list Z) :=
  if offset =? 10 then raise (Exception "ffmpeg failed: ") else ret (ramp 200).

(** References under [short/] have 25 frames, the others 200. *)
Definition get_fingerprint (filename : string) : result (list Z) :=
  if String.prefix "short/" filename then ret (ramp 25) else ret (ramp 200).

Definition get_fingerprints (dirname : string) : list string :=
  [(dirname ++ "/song.mp3.fpcalc")%string].

Definition get_audio_duration (filename : string) : result Z := ret 520.

Definition scan : string -> string -> result (list found_song) :=
  correlate calculate_fingerprint get_fingerprint get_fingerprints get_audio_duration.

End Example.

(* ================================================================= *)
(** * [get_fingerprint] and its cache *)

Module FingerprintFile.

(** [s.find(sub)] counted from position [i] of the original string: the
    lowest index at which [sub] occurs, or -1. *)
Fixpoint find_from (sub s : string) (i : Z) : Z :=
  match s with
  | EmptyString => if String.prefix sub s then i else -1
  | String _ s' => if String.prefix sub s then i else find_from sub s' (i + 1)
  end.

Definition find (s sub : string) : Z := find_from sub s 0.

(** [s[n:]] for a non-negative [n]. *)
Fixpoint drop (n : nat) (s : string) : string :=
  match n, s with
  | O, _ => s
  | S n', EmptyString => EmptyString
  | S n', String _ s' => drop n' s'
  end.

(** [s.split(sep)] for a one-character separator: the fields between the
    separators, at least one. *)
Fixpoint split (sep : ascii) (s : string) : list string :=
  match s with
  | EmptyString => [EmptyString]
  | String c s' =>
      if Ascii.eqb c sep then EmptyString :: split sep s'
      else
        match split sep s' with
        | field :: fields => String c field :: fields
        | [] => [String c EmptyString]
        end
  end.

(** [list(map(f, l))] for an [f] that may raise. *)
Fixpoint map_raising {A B} (f : A -> result B) (l : list A) : result (list B) :=
  match l with
  | [] => ret []
  | a :: l' => b <- f a ;; bs <- map_raising f l' ;; ret (b :: bs)
  end.

(** The global dictionary [fpcalc_cache]: file name to file content. *)
Definition cache : Type := string -> option string.

Definition empty_cache : cache := fun _ => None.

(** [fpcalc_cache.update({filename: content})] *)
Definition update (fpcalc_cache : cache) (filename content : string) : cache :=
  fun k => if String.eqb k filename then Some content else fpcalc_cache k.

Section Reader.

(** [open(filename, "r")] followed by [''.join(f.readlines())]: the content
    of the file, or the exception of [open]. *)
Variable read_file : string -> result string.
(** The builtin [int] on a string. *)
Variable int : string -> result Z.

(** The end of [get_fingerprint], from [fingerprint_index = ...] on. *)
Definition parse (fpcalc_content : string) : result (list Z) :=
  let fingerprint_index := find fpcalc_content "FINGERPRINT=" + 12 in
  map_raising int (split "," (drop (Z.to_nat fingerprint_index) fpcalc_content)).

(** [get_fingerprint(filename)], with the cache before and after the
    call. *)
Definition get_fingerprint (fpcalc_cache : cache) (filename : string)
    : result (list Z) * cache :=
  match fpcalc_cache filename with
  | Some fpcalc_content => (parse fpcalc_content, fpcalc_cache)
  | None =>
      match read_file filename with
      | inl e => (inl e, fpcalc_cache)
      | inr fpcalc_content =>
          (parse fpcalc_content, update fpcalc_cache filename fpcalc_content)
      end
  end.

End Reader.

(** The cache only holds what the files hold. *)
Definition agrees (read_file : string -> result string) (fpcalc_cache : cache) : Prop :=
  forall filename content,
    fpcalc_cache filename = Some content -> read_file filename = inr content.

End FingerprintFile.

(* ================================================================= *)
(** * [main.py] *)

Module Main.

(** [datetime.timedelta], in whole seconds: [seconds] is within a day. *)
Record timedelta : Type := { days : Z; seconds : Z }.

(** The exception of [timedelta] when the number of days has more than nine
    digits. *)
Inductive overflow : Type := OverflowError.

(** [datetime.timedelta(seconds=offset)] for an integer [offset]. *)
Definition timedelta_of_seconds (offset : Z) : overflow + timedelta :=
  let d := offset / 86400 in
  if (d <? -999999999) || (d >? 999999999) then inl OverflowError
  else inr {| days := d; seconds := offset mod 86400 |}.

Definition get_days_hours_minutes_seconds_from_timedelta (td : timedelta)
    : Z * Z * Z * Z :=
  (days td, seconds td / 3600, (seconds td / 60) mod 60, seconds td mod 60).

(** [str(n)] for an integer. *)
Definition str (n : Z) : string := fmt_i n.

Fixpoint zeros (n : nat) : string :=
  match n with
  | O => EmptyString
  | S n' => String "0" (zeros n')
  end.

(** [s.zfill(width)]: zeros on the left, after a leading sign. *)
Definition zfill (s : string) (width : nat) : string :=
  if (width <=? String.length s)%nat then s
  else
    let fill := zeros (width - String.length s) in
    match s with
    | String c s' =>
        if Ascii.eqb c "+" || Ascii.eqb c "-" then String c (fill ++ s')
        else (fill ++ s)%string
    | EmptyString => fill
    end.

(** The time label built in the loop body of [make_songlist]. *)
Definition time_label (days hours minutes seconds : Z) : string :=
  let time := zfill (str seconds) 2 in
  let time := if minutes >? 0 then (zfill (str minutes) 2 ++ ":" ++ time)%string else time in
  let time := if hours >? 0 then (zfill (str hours) 2 ++ ":" ++ time)%string else time in
  let time := if days >? 0 then (zfill (str days) 2 ++ ":" ++ time)%string else time in
  time.

Definition newline : string := String (ascii_of_nat 10) EmptyString.

Definition same_song (last_song : option string) (song_name : string) : bool :=
  match last_song with
  | Some last => String.eqb last song_name
  | None => false
  end.

(** [for found_song in found_songs], with the two variables the loop
    updates. *)
Fixpoint make_songlist_loop (found_songs : list found_song) (songlist : string)
    (last_song : option string) : overflow + string :=
  match found_songs with
  | [] => inr songlist
  | (song_name, correlation, offset) :: rest =>
      let song_name := replace song_name ".mp3" "" in
      if same_song last_song song_name then
        make_songlist_loop rest songlist (Some song_name)
      else
        match timedelta_of_seconds offset with
        | inl e => inl e
        | inr delta =>
            let '(days, hours, minutes, seconds) :=
              get_days_hours_minutes_seconds_from_timedelta delta in
            let time := time_label days hours minutes seconds in
            let songlist :=
              if String.eqb songlist "" then (time ++ " - " ++ song_name)%string
              else (songlist ++ newline ++ time ++ " - " ++ song_name)%string in
            make_songlist_loop rest songlist (Some song_name)
        end
  end.

Definition make_songlist (found_songs : list found_song) : overflow + string :=
  make_songlist_loop found_songs "" None.

End Main.

(* ================================================================= *)
(** * Auxiliary definitions of the further properties *)

(** A frame is a 32-bit unsigned integer. *)
Definition frame_32_bit (a : Z) : Prop := 0 <= a < 2 ^ 32.

(** The number of frames two fingerprints of [lx] and [ly] frames share
    once shifted by [offset]. *)
Definition overlap (lx ly offset : Z) : Z :=
  if offset >? 0 then Z.min (Z.max (lx - offset) 0) ly
  else if offset <? 0 then Z.min lx (Z.max (ly + offset) 0)
  else Z.min lx ly.

(** How many of the offsets lie in the window [[a, a + d]]. *)
Definition in_window (a d : Z) (offsets : list Z) : Z :=
  len (filter (fun o => (a <=? o) && (o <=? a + d)) offsets).

(** The timestamp of a found song. *)
Definition timestamp (found : found_song) : Z := snd found.

(** The songs [make_songlist] prints: the name without [.mp3] and the
    timestamp of every song that does not repeat the name just before it. *)
Fixpoint printed (found_songs : list found_song) (last_song : option string)
    : list (string * Z) :=
  match found_songs with
  | [] => []
  | (song_name, _, offset) :: rest =>
      let song_name := replace song_name ".mp3" "" in
      if Main.same_song last_song song_name then printed rest (Some song_name)
      else (song_name, offset) :: printed rest (Some song_name)
  end.

(** The line of a printed song, for a timestamp within the range of
    [timedelta]. *)
Definition line (entry : string * Z) : string :=
  let offset := snd entry in
  (Main.time_label (offset / 86400) (offset mod 86400 / 3600)
     ((offset mod 86400 / 60) mod 60) (offset mod 86400 mod 60)
   ++ " - " ++ fst entry)%string.

(** What one pass of the loop of [make_songlist] does to [songlist]. *)
Definition add_line (songlist l : string) : string :=
  if String.eqb songlist "" then l else (songlist ++ Main.newline ++ l)%string.

(** The timestamps [timedelta] accepts: fewer than a thousand million days
    either way. *)
Definition timedelta_range (offset : Z) : Prop :=
  -999999999 * 86400 <= offset < 1000000000 * 86400.

(** [sub] occurs in [s] at position [k]. *)
Definition occurs_at (sub s : string) (k : nat) : Prop :=
  String.prefix sub (FingerprintFile.drop k s) = true.

(** [sep.join(lines)] *)
Fixpoint join (sep : string) (lines : list string) : string :=
  match lines with
  | [] => EmptyString
  | [l] => l
  | l :: lines' => (l ++ sep ++ join sep lines')%string
  end.

(** No two neighbours of the list have the same name. *)
Fixpoint no_repeat (last_song : option string) (entries : list (string * Z)) : Prop :=
  match entries with
  | [] => True
  | (name, _) :: rest => last_song <> Some name /\ no_repeat (Some name) rest
  end.

(* ================================================================= *)
(** * Properties of [correlation] *)

(** [bin(n).count("1")] is the population count of a non-negative [n]. *)
Lemma set_bits_succ (n : Z) (width : nat) :
  0 <= n ->
  Spec.set_bits n (S width)
  = (if Z.odd n then 1 else 0) + Spec.set_bits (Z.div2 n) width.
Proof.
  intros Hn. unfold Spec.set_bits.
  cbn [seq map filter]. rewrite <- seq_shift, map_map.
  change (Z.testbit n (Z.of_nat 0)) with (Z.testbit n 0). rewrite Z.bit0_odd.
  assert (E : filter (Z.testbit n) (map (fun i => Z.of_nat (S i)) (seq 0 width))
              = map Z.succ (filter (Z.testbit (Z.div2 n)) (map Z.of_nat (seq 0 width)))).
  { induction (seq 0 width) as [|i l IH]; [reflexivity|].
    cbn [map filter]. rewrite Nat2Z.inj_succ.
    rewrite Z.div2_spec, Z.shiftr_spec by lia.
    replace (Z.of_nat i + 1) with (Z.succ (Z.of_nat i)) by lia.
    destruct (Z.testbit n (Z.succ (Z.of_nat i))); cbn [map]; rewrite IH; reflexivity. }
  rewrite E. destruct (Z.odd n); cbn [List.length]; rewrite length_map; lia.
Qed.

Lemma bin_count_1_set_bits (width : nat) (n : Z) :
  0 <= n < 2 ^ Z.of_nat width -> bin_count_1 n = Spec.set_bits n width.
Proof.
  revert n; induction width as [|width IH]; intros n Hn.
  - assert (n = 0) by (simpl in Hn; lia). subst. reflexivity.
  - rewrite set_bits_succ by lia.
    rewrite Nat2Z.inj_succ, Z.pow_succ_r in Hn by lia.
    rewrite <- IH.
    + destruct n as [|[p|p|]|p]; try reflexivity. lia.
    + rewrite Z.div2_div. split; [apply Z.div_pos; lia|].
      apply Z.div_lt_upper_bound; lia.
Qed.

Lemma lxor_32_bit (a b : Z) :
  0 <= a < 2 ^ 32 -> 0 <= b < 2 ^ 32 -> 0 <= Z.lxor a b < 2 ^ 32.
Proof.
  intros Ha Hb.
  assert (N : 0 <= Z.lxor a b) by (apply Z.lxor_nonneg; lia).
  split; [exact N|].
  destruct (Z.eq_dec (Z.lxor a b) 0) as [-> | Hz]; [reflexivity|].
  apply Z.log2_lt_pow2; [lia|].
  pose proof (Z.log2_lxor a b ltac:(lia) ltac:(lia)) as L.
  assert (La : Z.log2 a < 32).
  { destruct (Z.eq_dec a 0) as [-> | ?]; [reflexivity | apply Z.log2_lt_pow2; lia]. }
  assert (Lb : Z.log2 b < 32).
  { destruct (Z.eq_dec b 0) as [-> | ?]; [reflexivity | apply Z.log2_lt_pow2; lia]. }
  lia.
Qed.

(** On 32-bit frames, the score the code adds for a frame pair counts the
    bit positions on which the two frames agree. *)
Lemma frame_agreement_32_bit (a b : Z) :
  0 <= a < 2 ^ 32 -> 0 <= b < 2 ^ 32 ->
  Spec.frame_agreement a b
  = (inject_Z (32 - bin_count_1 (Z.lxor a b)) / 32)%Q.
Proof.
  intros Ha Hb. unfold Spec.frame_agreement.
  rewrite (bin_count_1_set_bits 32) by (apply lxor_32_bit; assumption).
  reflexivity.
Qed.

Lemma skipn_nth_cons (l : list Z) (k : nat) :
  (k < List.length l)%nat -> skipn k l = nth k l 0 :: skipn (S k) l.
Proof.
  revert k; induction l as [|a l IH]; intros [|k] Hk; simpl in Hk; try lia.
  - reflexivity.
  - change (skipn k l = nth k l 0 :: skipn (S k) l). apply IH. lia.
Qed.

(** The index loop of [correlation] adds up the frame scores of the aligned
    pairs it visits. *)
Lemma covariance_loop (listx listy : list Z) (n k : nat) (acc : Z) :
  (k + n <= List.length listx)%nat -> (k + n <= List.length listy)%nat ->
  fold_left (covariance_step listx listy) (seq k n) acc
  = acc + Zsum (map frame_score (combine (firstn n (skipn k listx)) (firstn n (skipn k listy)))).
Proof.
  revert k acc; induction n as [|n IH]; intros k acc Hx Hy; simpl.
  - unfold Zsum; simpl; lia.
  - rewrite IH by lia.
    rewrite (skipn_nth_cons listx k) by lia.
    rewrite (skipn_nth_cons listy k) by lia.
    unfold covariance_step, frame_score, Zsum; simpl. lia.
Qed.

Lemma covariance_total (listx listy : list Z) :
  List.length listx = List.length listy ->
  fold_left (covariance_step listx listy) (seq 0 (List.length listx)) 0
  = Zsum (map frame_score (combine listx listy)).
Proof.
  intros E. rewrite covariance_loop by (simpl; lia). simpl.
  rewrite firstn_all. rewrite E, firstn_all. reflexivity.
Qed.

Lemma Qsum_frame_agreement (x y : list Z) :
  Forall frame_32_bit x -> Forall frame_32_bit y ->
  (Spec.Qsum (map (fun p => Spec.frame_agreement (fst p) (snd p)) (combine x y))
   == inject_Z (Zsum (map frame_score (combine x y))) / 32)%Q.
Proof.
  intros Fx. revert y. induction Fx as [|a x Ha _ IH]; intros y Fy.
  - reflexivity.
  - destruct Fy as [|b y Hb Fy]; [reflexivity|].
    cbn [combine map Spec.Qsum fold_right Zsum fst snd].
    fold (Spec.Qsum (map (fun p => Spec.frame_agreement (fst p) (snd p)) (combine x y))).
    fold (Zsum (map frame_score (combine x y))).
    rewrite (IH y Fy), (frame_agreement_32_bit a b Ha Hb).
    change (32 - bin_count_1 (Z.lxor a b)) with (frame_score (a, b)).
    rewrite inject_Z_plus. field.
Qed.

Lemma combine_firstn_min (x y : list Z) :
  combine (firstn (Nat.min (List.length x) (List.length y)) x)
          (firstn (Nat.min (List.length x) (List.length y)) y)
  = combine x y.
Proof.
  revert y; induction x as [|a x IH]; intros [|b y]; simpl; try reflexivity.
  f_equal. apply IH.
Qed.

(** [correlation] on non-empty lists: the total frame score of the aligned
    pairs, divided by the common length and by 32. *)
Lemma correlation_value (x y : list Z) :
  x <> [] -> y <> [] ->
  correlation x y
  = inr (inject_Z (Zsum (map frame_score (combine x y)))
         / inject_Z (Z.of_nat (Nat.min (List.length x) (List.length y))) / 32)%Q.
Proof.
  intros Hx Hy. unfold correlation, len, slice_to.
  destruct x as [|a x]; [congruence|]. destruct y as [|b y]; [congruence|].
  replace (Z.of_nat (List.length (a :: x)) =? 0) with false
    by (symmetry; apply Z.eqb_neq; simpl; lia).
  replace (Z.of_nat (List.length (b :: y)) =? 0) with false
    by (symmetry; apply Z.eqb_neq; simpl; lia).
  cbn [orb].
  set (lx := a :: x). set (ly := b :: y).
  destruct (Z.gtb_spec (Z.of_nat (List.length lx)) (Z.of_nat (List.length ly))) as [G|G].
  - rewrite Nat2Z.id.
    assert (E : List.length (firstn (List.length ly) lx) = List.length ly)
      by (rewrite length_firstn; lia).
    rewrite covariance_total by exact E. rewrite E.
    replace (Nat.min (List.length lx) (List.length ly)) with (List.length ly) by lia.
    rewrite <- (combine_firstn_min lx ly).
    replace (Nat.min (List.length lx) (List.length ly)) with (List.length ly) by lia.
    rewrite (firstn_all ly). reflexivity.
  - destruct (Z.ltb_spec (Z.of_nat (List.length lx)) (Z.of_nat (List.length ly))) as [L|L].
    + rewrite Nat2Z.id.
      assert (E : List.length lx = List.length (firstn (List.length lx) ly))
        by (rewrite length_firstn; lia).
      rewrite covariance_total by exact E.
      rewrite <- (combine_firstn_min lx ly).
      replace (Nat.min (List.length lx) (List.length ly)) with (List.length lx) by lia.
      rewrite (firstn_all lx). reflexivity.
    + assert (E : List.length lx = List.length ly) by lia.
      rewrite covariance_total by exact E.
      replace (Nat.min (List.length lx) (List.length ly)) with (List.length lx) by lia.
      reflexivity.
Qed.

Lemma correlation_empty (x y : list Z) :
  x = [] \/ y = [] -> correlation x y = inl EmptyInputError.
Proof.
  intros [-> | ->]; unfold correlation; [reflexivity|].
  destruct x; reflexivity.
Qed.

(** Identical four-frame fingerprints agree fully; a frame of 32 ones and a
    zero frame do not agree at all. *)
Example correlation_identical :
  exists q, correlation [0; 0; 0; 0] [0; 0; 0; 0] = inr q /\ Qeq q 1.
Proof. eexists. split; reflexivity. Qed.

Example correlation_complement :
  exists q, correlation [4294967295] [0] = inr q /\ Qeq q 0.
Proof. eexists. split; reflexivity. Qed.

(** C2. On non-empty fingerprints (sequences of 32-bit frames)
    [correlation] returns the arithmetic mean, over the frame pairs aligned
    after cutting the longer sequence to the length of the shorter, of
    [(32 - popcount(x_i XOR y_i)) / 32], the population count being the
    number of set bits among the 32 bit positions; when either fingerprint
    is empty it raises the empty-input exception. *)
Theorem correlation_is_mean_agreement (x y : list Z) :
  (x = [] \/ y = [] -> correlation x y = inl EmptyInputError) /\
  (x <> [] -> y <> [] -> Forall frame_32_bit x -> Forall frame_32_bit y ->
   exists q, correlation x y = inr q /\ (q == Spec.similarity x y)%Q).
Proof.
  split; [apply correlation_empty|].
  intros Hx Hy Fx Fy. eexists; split; [apply correlation_value; assumption|].
  unfold Spec.similarity. rewrite combine_firstn_min.
  rewrite (Qsum_frame_agreement x y Fx Fy).
  assert (N : ~ (inject_Z (Z.of_nat (Nat.min (List.length x) (List.length y))) == 0)%Q).
  { destruct x; [congruence|]; destruct y; [congruence|].
    unfold Qeq; simpl. lia. }
  field. exact N.
Qed.

Lemma correlation_is_mean_agreement_witness :
  correlation [7; 4294967295; 12; 5] [0; 0; 10] <> inl EmptyInputError /\
  exists q, correlation [7; 4294967295; 12; 5] [0; 0; 10] = inr q
            /\ Qeq q (Spec.similarity [7; 4294967295; 12; 5] [0; 0; 10])
            /\ Qeq q (59 # 96).
Proof.
  destruct (proj2 (correlation_is_mean_agreement [7; 4294967295; 12; 5] [0; 0; 10]))
    as [q [E Q]]; try discriminate;
    try (repeat constructor; unfold frame_32_bit; lia).
  split; [rewrite E; discriminate|].
  exists q. split; [exact E|]. split; [exact Q|].
  rewrite Q. reflexivity.
Defined.

(* ================================================================= *)
(** * Properties of [arange] and [range] *)

Lemma progression_length (start d : Z) (n : nat) :
  List.length (progression start d n) = n.
Proof. revert start; induction n; intros; simpl; auto. Qed.

Lemma progression_nth (start d : Z) (n i : nat) :
  (i < n)%nat -> nth i (progression start d n) 0 = start + Z.of_nat i * d.
Proof.
  revert start i; induction n as [|n IH]; intros start [|i] H; try lia.
  - simpl. lia.
  - cbn [progression nth]. rewrite IH by lia. lia.
Qed.

Lemma progression_In (start d : Z) (n : nat) (o : Z) :
  In o (progression start d n) <->
  exists k, 0 <= k < Z.of_nat n /\ o = start + k * d.
Proof.
  revert start; induction n as [|n IH]; intros start; cbn [progression In].
  - split; [tauto | intros [k [H _]]; lia].
  - rewrite IH. split.
    + intros [<- | [k [Hk ->]]].
      * exists 0. lia.
      * exists (k + 1). lia.
    + intros [k [Hk ->]]. destruct (Z.eq_dec k 0) as [-> | Hn].
      * left. lia.
      * right. exists (k - 1). lia.
Qed.

Lemma progression_increasing (start d : Z) (n : nat) :
  0 < d -> StronglySorted Z.lt (progression start d n).
Proof.
  intros Hd. revert start; induction n as [|n IH]; intros start; simpl.
  - constructor.
  - constructor; [apply IH|].
    apply Forall_forall. intros o Ho.
    apply progression_In in Ho. destruct Ho as [k [Hk ->]]. nia.
Qed.

(** For a positive step, the sweep [arange(-span, span + 1, step)] has
    [floor(2 * span / step) + 1] terms (none when that is not positive). *)
Lemma sweep_len (span step : Z) :
  0 < step ->
  range_len (- span) (span + 1) step = Z.to_nat (2 * span / step + 1).
Proof.
  intros Hs. unfold range_len. f_equal.
  pose proof (Z.div_mod (2 * span) step ltac:(lia)) as E.
  pose proof (Z.mod_pos_bound (2 * span) step Hs) as B.
  symmetry.
  assert (Q : (- span - (span + 1)) / step = - (2 * span / step + 1)).
  { symmetry. apply (Z.div_unique_pos _ _ _ (step - 2 * span mod step - 1)); lia. }
  rewrite Q. lia.
Qed.

(** The offsets of a sweep are the terms [-span + k * step] up to [span],
    [span] itself being one of them when it is reached. *)
Lemma sweep_offsets_In (span step o : Z) :
  0 < step ->
  In o (progression (- span) step (range_len (- span) (span + 1) step)) <->
  exists k, 0 <= k /\ o = - span + k * step /\ o <= span.
Proof.
  intros Hs. rewrite sweep_len by assumption. rewrite progression_In.
  pose proof (Z.div_mod (2 * span) step ltac:(lia)) as E.
  pose proof (Z.mod_pos_bound (2 * span) step Hs) as B.
  split; intros [k H]; exists k.
  - destruct H as [Hk ->]. repeat split; try lia.
    assert (k <= 2 * span / step) by lia. nia.
  - destruct H as [Hk [-> Ho]]. split; [|reflexivity].
    assert (k * step <= 2 * span) by lia.
    assert (k <= 2 * span / step) by (apply Z.div_le_lower_bound; lia).
    lia.
Qed.

(* ================================================================= *)
(** * Properties of [cross_correlation] and [compare] *)

Lemma len_0_nil {A} (l : list A) : len l = 0 <-> l = [].
Proof. unfold len. destruct l; simpl; split; intros; try congruence; lia. Qed.

(** The [min_overlap] guard keeps [correlation] away from empty lists:
    [cross_correlation] never raises. *)
Lemma cross_correlation_total (listx listy : list Z) (offset : Z) :
  exists c, cross_correlation listx listy offset = inr c.
Proof.
  unfold cross_correlation.
  match goal with |- context [let '(a, b) := ?p in _] => destruct p as [lx ly] end.
  destruct (Z.ltb_spec (Z.min (len lx) (len ly)) min_overlap) as [H|H].
  - eexists; reflexivity.
  - unfold min_overlap in H.
    assert (Hx : lx <> []) by (intros ->; unfold len in H; simpl in H; lia).
    assert (Hy : ly <> []) by (intros ->; unfold len in H; simpl in H; lia).
    rewrite (correlation_value lx ly Hx Hy). eexists; reflexivity.
Qed.

Lemma compare_loop_scores (listx listy : list Z) (offsets : list Z) (corr_xy : list (option Q)) :
  exists scores,
    compare_loop listx listy offsets corr_xy = inr (corr_xy ++ scores)
    /\ Forall2 (scored_at listx listy) offsets scores.
Proof.
  revert corr_xy; induction offsets as [|o offsets IH]; intros corr_xy; simpl.
  - exists []. rewrite app_nil_r. split; [reflexivity | constructor].
  - destruct (cross_correlation_total listx listy o) as [c Hc]. rewrite Hc. simpl.
    destruct (IH (corr_xy ++ [c])) as [scores [E F]].
    exists (c :: scores). rewrite E, <- app_assoc. split; [reflexivity|].
    constructor; assumption.
Qed.

(** Within its precondition and for a non-zero step, [compare] returns the
    scores of the offsets of [arange(-span, span + 1, step)], in order. *)
Lemma compare_sweep (listx listy : list Z) (span step : Z) :
  span <= Z.min (len listx) (len listy) -> step <> 0 ->
  exists corr,
    compare listx listy span step = inr corr
    /\ Forall2 (scored_at listx listy)
         (progression (- span) step (range_len (- span) (span + 1) step)) corr.
Proof.
  intros Hspan Hstep. unfold compare, arange.
  destruct (Z.gtb_spec span (Z.min (len listx) (len listy))) as [G|_]; [lia|].
  destruct (Z.eqb_spec step 0) as [->|_]; [lia|]. simpl.
  destruct (compare_loop_scores listx listy
              (progression (- span) step (range_len (- span) (span + 1) step)) [])
    as [scores [E F]].
  exists scores. split; assumption.
Qed.

Lemma Forall2_length_eq {A B} (R : A -> B -> Prop) (l : list A) (l' : list B) :
  Forall2 R l l' -> List.length l = List.length l'.
Proof. induction 1; simpl; congruence. Qed.

(** C5. Within the precondition [span <= min(len(x), len(y))] and for a
    positive step, [compare] evaluates [cross_correlation] at exactly the
    offsets [-span, -span + step, ...] that do not exceed [span] (the bound
    [span] is inclusive), once each, and returns the scores in the order of
    increasing offset. *)
Theorem compare_sweeps_arithmetic_sequence (x y : list Z) (span step : Z) :
  span <= Z.min (len x) (len y) -> 0 < step ->
  exists offsets corr,
    compare x y span step = inr corr
    /\ Forall2 (scored_at x y) offsets corr
    /\ (forall o, In o offsets <->
                  exists k, 0 <= k /\ o = - span + k * step /\ o <= span)
    /\ (0 <= span -> (step | 2 * span) -> In span offsets)
    /\ StronglySorted Z.lt offsets.
Proof.
  intros Hspan Hstep.
  destruct (compare_sweep x y span step Hspan ltac:(lia)) as [corr [E F]].
  eexists; exists corr. split; [exact E|]. split; [exact F|]. split; [|split].
  - intros o. apply sweep_offsets_In. assumption.
  - intros Hpos [k Hk]. apply sweep_offsets_In; [assumption|].
    exists k. split; [nia | lia].
  - apply progression_increasing. assumption.
Qed.

(** C8. Within the same precondition, the sweep has
    [floor(2 * span / step) + 1] entries (for a negative [span] that number
    is not positive and the sweep is empty), at strictly increasing
    offsets. *)
Theorem compare_entry_count (x y : list Z) (span step : Z) :
  span <= Z.min (len x) (len y) -> 0 < step ->
  exists offsets corr,
    compare x y span step = inr corr
    /\ List.length corr = Z.to_nat (2 * span / step + 1)
    /\ (0 <= span -> len corr = 2 * span / step + 1)
    /\ arange (- span) (span + 1) step = inr offsets
    /\ Forall2 (scored_at x y) offsets corr
    /\ StronglySorted Z.lt offsets.
Proof.
  intros Hspan Hstep.
  destruct (compare_sweep x y span step Hspan ltac:(lia)) as [corr [E F]].
  assert (L : List.length corr = Z.to_nat (2 * span / step + 1)).
  { rewrite <- (Forall2_length_eq _ _ _ F), progression_length.
    apply sweep_len. assumption. }
  eexists; exists corr. split; [exact E|]. split; [exact L|]. split; [|split; [|split]].
  - intros Hpos. unfold len. rewrite L.
    assert (0 <= 2 * span / step) by (apply Z.div_pos; lia). lia.
  - unfold arange. destruct (Z.eqb_spec step 0); [lia | reflexivity].
  - exact F.
  - apply progression_increasing. assumption.
Qed.

Lemma compare_sweeps_arithmetic_sequence_witness :
  exists offsets corr,
    compare (ramp 40) (ramp 45) 20 10 = inr corr
    /\ Forall2 (scored_at (ramp 40) (ramp 45)) offsets corr
    /\ (forall o, In o offsets <->
                  exists k, 0 <= k /\ o = - 20 + k * 10 /\ o <= 20)
    /\ (0 <= 20 -> (10 | 2 * 20) -> In 20 offsets)
    /\ StronglySorted Z.lt offsets.
Proof.
  apply (compare_sweeps_arithmetic_sequence (ramp 40) (ramp 45) 20 10).
  - vm_compute. discriminate.
  - lia.
Defined.

Lemma compare_entry_count_witness :
  exists offsets corr,
    compare (ramp 40) (ramp 45) 17 10 = inr corr
    /\ List.length corr = Z.to_nat (2 * 17 / 10 + 1)
    /\ (0 <= 17 -> len corr = 2 * 17 / 10 + 1)
    /\ arange (- 17) (17 + 1) 10 = inr offsets
    /\ Forall2 (scored_at (ramp 40) (ramp 45)) offsets corr
    /\ StronglySorted Z.lt offsets.
Proof.
  apply (compare_entry_count (ramp 40) (ramp 45) 17 10).
  - vm_compute. discriminate.
  - lia.
Defined.

(** Outside the precondition the guard of [compare] raises; inside it the
    only possible failure is the division by a zero step inside
    [numpy.arange]. *)
Lemma compare_guard (x y : list Z) (span step : Z) :
  span > Z.min (len x) (len y) ->
  compare x y span step = inl (SpanTooLargeError span (Z.min (len x) (len y))).
Proof.
  intros G. unfold compare.
  destruct (Z.gtb_spec span (Z.min (len x) (len y))); [reflexivity | lia].
Qed.

Lemma compare_zero_step (x y : list Z) (span : Z) :
  span <= Z.min (len x) (len y) -> compare x y span 0 = inl ZeroDivisionError.
Proof.
  intros G. unfold compare.
  destruct (Z.gtb_spec span (Z.min (len x) (len y))); [lia | reflexivity].
Qed.

(** C7. [compare] raises the span-too-large exception exactly when
    [span > min(len(x), len(y))]: it raises it there, and for a smaller
    span it raises no such exception (it returns a score list unless the
    step is zero).  The message of the exception contains the requested span
    and the limiting length [min(len(x), len(y))]. *)
Theorem compare_span_too_large (x y : list Z) (span step : Z) :
  let limit := Z.min (len x) (len y) in
  (span > limit -> compare x y span step = inl (SpanTooLargeError span limit))
  /\ (span <= limit ->
      (forall s l, compare x y span step <> inl (SpanTooLargeError s l))
      /\ (step <> 0 -> exists corr, compare x y span step = inr corr))
  /\ (exists pre mid post,
        SpanTooLargeError span limit
        = Exception (pre ++ fmt_i span ++ mid ++ fmt_i limit ++ post)%string).
Proof.
  intros limit. split; [apply compare_guard|]. split.
  - intros Hspan. split.
    + intros s l. destruct (Z.eq_dec step 0) as [->|Hstep].
      * rewrite compare_zero_step by assumption. discriminate.
      * destruct (compare_sweep x y span step Hspan Hstep) as [corr [E _]].
        rewrite E. discriminate.
    + intros Hstep.
      destruct (compare_sweep x y span step Hspan Hstep) as [corr [E _]].
      exists corr. exact E.
  - do 3 eexists. unfold SpanTooLargeError, span_message. reflexivity.
Qed.

Lemma compare_span_too_large_witness :
  compare (ramp 40) (ramp 45) 41 10
  = inl (Exception ("span >= sample size: 41 >= 40" ++ String (ascii_of_nat 10)
                    "Reduce span, reduce crop or increase sample_time."))
  /\ exists corr, compare (ramp 40) (ramp 45) 40 10 = inr corr.
Proof.
  split.
  - rewrite (proj1 (compare_span_too_large (ramp 40) (ramp 45) 41 10))
      by (vm_compute; reflexivity).
    vm_compute. reflexivity.
  - apply (proj1 (proj2 (compare_span_too_large (ramp 40) (ramp 45) 40 10))).
    + vm_compute. discriminate.
    + lia.
Defined.

(* ================================================================= *)
(** * Properties of [is_match] *)

(** On a score list without absent entries the comprehension is a plain
    filter. *)
Lemma high_filter_present (pairs : list (Q * Z)) (threshold : Q) :
  high_filter (present pairs) threshold = inr (present (Spec.high pairs threshold)).
Proof.
  unfold present.
  induction pairs as [|[c o] pairs IH]; [reflexivity|].
  cbn [map high_filter fst snd ge bind]. rewrite IH.
  unfold Spec.high. cbn [bind filter fst].
  destruct (Qle_bool threshold c); reflexivity.
Qed.

(** An absent score anywhere in the list makes the comprehension raise. *)
Lemma high_filter_absent (corr_scores : list (option Q * Z)) (threshold : Q) (o : Z) :
  In (None, o) corr_scores -> high_filter corr_scores threshold = inl TypeError.
Proof.
  induction corr_scores as [|[c o'] rest IH]; simpl; [tauto|].
  intros [E | H].
  - inversion E; subst. reflexivity.
  - destruct c as [c|]; [|reflexivity]. simpl. rewrite (IH H). reflexivity.
Qed.

Lemma sort_insert_perm {A} (key : A -> Z) (x : A) (l : list A) :
  Permutation (sort_insert key x l) (x :: l).
Proof.
  induction l as [|y l IH]; simpl; [reflexivity|].
  destruct (key x <=? key y); [reflexivity|].
  rewrite IH. apply perm_swap.
Qed.

Lemma sort_perm {A} (key : A -> Z) (l : list A) : Permutation (sort key l) l.
Proof.
  induction l as [|x l IH]; simpl; [reflexivity|].
  rewrite sort_insert_perm. constructor. exact IH.
Qed.

Lemma sort_insert_sorted {A} (key : A -> Z) (x : A) (l : list A) :
  key_sorted key l -> key_sorted key (sort_insert key x l).
Proof.
  unfold key_sorted. induction l as [|y l IH]; simpl; intros S.
  - repeat constructor.
  - inversion S as [|? ? S' F]; subst.
    destruct (Z.leb_spec (key x) (key y)) as [L|L]; simpl.
    + constructor; [exact S|]. constructor; [exact L|].
      eapply Forall_impl; [|exact F]. simpl; intros; lia.
    + constructor; [apply IH; exact S'|].
      apply Forall_forall. intros k Hk.
      apply (Permutation_in _ (Permutation_map key (sort_insert_perm key x l))) in Hk.
      destruct Hk as [<- | Hk]; [lia|].
      rewrite Forall_forall in F. apply F. exact Hk.
Qed.

Lemma sort_sorted {A} (key : A -> Z) (l : list A) : key_sorted key (sort key l).
Proof.
  induction l as [|x l IH]; simpl; [constructor|].
  apply sort_insert_sorted. exact IH.
Qed.

(** Two ascending lists with the same elements are equal. *)
Lemma sorted_perm_eq (l1 l2 : list Z) :
  StronglySorted Z.le l1 -> StronglySorted Z.le l2 -> Permutation l1 l2 -> l1 = l2.
Proof.
  revert l2; induction l1 as [|a l1 IH]; intros l2 S1 S2 P.
  - apply Permutation_nil in P. subst. reflexivity.
  - destruct l2 as [|b l2]; [apply Permutation_sym, Permutation_nil in P; discriminate|].
    inversion S1 as [|? ? S1' F1]; inversion S2 as [|? ? S2' F2]; subst.
    rewrite Forall_forall in F1, F2.
    assert (E : a = b).
    { assert (Ha : In a (b :: l2)) by (eapply Permutation_in; [exact P | left; reflexivity]).
      assert (Hb : In b (a :: l1))
        by (eapply Permutation_in; [apply Permutation_sym; exact P | left; reflexivity]).
      destruct Ha as [Ha | Ha]; [congruence|].
      destruct Hb as [Hb | Hb]; [congruence|].
      apply F2 in Ha. apply F1 in Hb. lia. }
    subst b. f_equal. apply IH; try assumption.
    eapply Permutation_cons_inv. exact P.
Qed.

(** The inner loop extends the cluster with the longest run of following
    offsets that stay within the deviation of the anchor. *)
Lemma cluster_loop_take_while (offsets : list Z) (d anchor : Z) (m j : nat)
    (cluster : list Z) :
  (j + m <= List.length offsets)%nat ->
  cluster_loop offsets d (seq j m) (anchor :: cluster)
  = (anchor :: cluster)
    ++ Spec.take_while (fun o => o - anchor <=? d) (firstn m (skipn j offsets)).
Proof.
  revert j cluster; induction m as [|m IH]; intros j cluster H; simpl.
  - rewrite app_nil_r. reflexivity.
  - rewrite (skipn_nth_cons offsets j) by lia. simpl.
    destruct (nth j offsets 0 - anchor <=? d).
    + change (anchor :: cluster ++ [nth j offsets 0])
        with (anchor :: (cluster ++ [nth j offsets 0])).
      rewrite IH by lia. simpl. rewrite <- app_assoc. reflexivity.
    + rewrite app_nil_r. reflexivity.
Qed.

Lemma cluster_loop_cluster_at (offsets : list Z) (d : Z) (i : nat) :
  (i < List.length offsets)%nat ->
  cluster_loop offsets d (seq (S i) (List.length offsets - S i)) [nth i offsets 0]
  = Spec.cluster_at offsets d i.
Proof.
  intros H. rewrite cluster_loop_take_while by lia.
  unfold Spec.cluster_at. rewrite (skipn_nth_cons offsets i) by lia.
  rewrite firstn_all2 by (rewrite length_skipn; lia). reflexivity.
Qed.

(** The outer loop answers whether one of the starting indices it visits
    has a large enough cluster. *)
Lemma match_loop_existsb (offsets : list Z) (m d : Z) (starts : list nat) :
  Forall (fun i => (i < List.length offsets)%nat) starts ->
  match_loop offsets m d starts
  = existsb (fun i => m <=? len (Spec.cluster_at offsets d i)) starts.
Proof.
  induction 1 as [|i starts Hi _ IH]; simpl; [reflexivity|].
  rewrite cluster_loop_cluster_at by exact Hi.
  rewrite Z.geb_leb. rewrite IH.
  destruct (m <=? len (Spec.cluster_at offsets d i)); reflexivity.
Qed.

Lemma seq_below (n : nat) : Forall (fun i => (i < n)%nat) (seq 0 n).
Proof. apply Forall_forall. intros i H. apply in_seq in H. lia. Qed.

Lemma take_while_length {A} (f : A -> bool) (l : list A) :
  (List.length (Spec.take_while f l) <= List.length l)%nat.
Proof.
  induction l as [|a l IH]; simpl; [lia|]. destruct (f a); simpl; lia.
Qed.

Lemma cluster_at_length (offsets : list Z) (d : Z) (i : nat) :
  (List.length (Spec.cluster_at offsets d i) <= List.length offsets)%nat.
Proof.
  unfold Spec.cluster_at.
  pose proof (length_skipn i offsets) as L.
  destruct (skipn i offsets) as [|a rest]; simpl in *; [lia|].
  pose proof (take_while_length (fun o => o - a <=? d) rest). lia.
Qed.

Lemma existsb_some_cluster (offsets : list Z) (m d : Z) :
  existsb (fun i => m <=? len (Spec.cluster_at offsets d i)) (seq 0 (List.length offsets)) = true
  <-> Spec.some_cluster offsets m d.
Proof.
  rewrite existsb_exists. unfold Spec.some_cluster.
  split; intros [i [Hi Hc]]; exists i.
  - apply in_seq in Hi. apply Z.leb_le in Hc. split; [lia | exact Hc].
  - split; [apply in_seq; lia | apply Z.leb_le; exact Hc].
Qed.

Lemma sorted_high_offsets_perm (pairs : list (Q * Z)) (threshold : Q) :
  Permutation (sorted_high_offsets pairs threshold) (map snd (Spec.high pairs threshold)).
Proof.
  unfold sorted_high_offsets. rewrite (Permutation_map snd (sort_perm snd _)).
  unfold present. rewrite map_map. simpl. reflexivity.
Qed.

Lemma is_match_present (pairs : list (Q * Z)) (threshold : Q) (m d : Z) :
  is_match (present pairs) threshold m d
  = inr (if len (Spec.high pairs threshold) <? m then false
         else existsb (fun i => m <=? len (Spec.cluster_at (sorted_high_offsets pairs threshold) d i))
                (seq 0 (List.length (sorted_high_offsets pairs threshold)))).
Proof.
  unfold is_match. rewrite high_filter_present. simpl.
  replace (len (present (Spec.high pairs threshold))) with (len (Spec.high pairs threshold))
    by (unfold len, present; rewrite length_map; reflexivity).
  destruct (len (Spec.high pairs threshold) <? m); [reflexivity|].
  rewrite match_loop_existsb by apply seq_below. reflexivity.
Qed.

(** C1. On a list of (score, offset) pairs, [is_match] keeps the pairs whose
    score reaches the threshold, answers false at once when fewer than
    [min_consistent_offsets] remain, sorts the kept offsets in ascending
    order and, for each starting index, forms the cluster of the anchor and
    of the following offsets up to the first one farther than
    [max_offset_deviation] from the anchor; the answer is true exactly when
    some starting index has a cluster of at least [min_consistent_offsets]
    members.  High-scoring offsets 0, 4 and 9 with a deviation of 5 and
    three required members give no match. *)
Theorem is_match_anchor_clusters (pairs : list (Q * Z)) (threshold : Q)
    (min_consistent_offsets max_offset_deviation : Z) :
  (exists offsets,
     Permutation offsets (map snd (Spec.high pairs threshold))
     /\ StronglySorted Z.le offsets
     /\ is_match (present pairs) threshold min_consistent_offsets max_offset_deviation
        = inr (if len (Spec.high pairs threshold) <? min_consistent_offsets then false
               else existsb
                      (fun i => min_consistent_offsets
                                <=? len (Spec.cluster_at offsets max_offset_deviation i))
                      (seq 0 (List.length offsets)))
     /\ (is_match (present pairs) threshold min_consistent_offsets max_offset_deviation
         = inr true
         <-> Spec.some_cluster offsets min_consistent_offsets max_offset_deviation))
  /\ (Permutation (map snd (Spec.high pairs threshold)) [0; 4; 9] ->
      is_match (present pairs) threshold 3 5 = inr false).
Proof.
  pose proof (sorted_high_offsets_perm pairs threshold) as P.
  assert (S : StronglySorted Z.le (sorted_high_offsets pairs threshold)).
  { unfold sorted_high_offsets. apply (sort_sorted snd). }
  split.
  - exists (sorted_high_offsets pairs threshold).
    split; [exact P|]. split; [exact S|]. split; [apply is_match_present|].
    rewrite is_match_present.
    assert (L : List.length (sorted_high_offsets pairs threshold)
                = List.length (Spec.high pairs threshold)).
    { rewrite (Permutation_length P). apply length_map. }
    destruct (Z.ltb_spec (len (Spec.high pairs threshold)) min_consistent_offsets) as [F|F].
    + split; [discriminate|]. intros [i [_ Hc]]. exfalso.
      pose proof (cluster_at_length (sorted_high_offsets pairs threshold)
                    max_offset_deviation i).
      unfold len in *. lia.
    + rewrite <- existsb_some_cluster. split; congruence.
  - intros E. rewrite is_match_present.
    assert (O : sorted_high_offsets pairs threshold = [0; 4; 9]).
    { apply sorted_perm_eq; [exact S | | rewrite P; exact E].
      repeat constructor; lia. }
    rewrite O. destruct (len (Spec.high pairs threshold) <? 3); reflexivity.
Qed.

Lemma is_match_anchor_clusters_witness :
  is_match [(Some (9 # 10), 9); (Some (1 # 10), 2); (Some (8 # 10), 0); (Some 1%Q, 4)]
    (3 # 4) 3 5 = inr false.
Proof.
  apply (proj2 (is_match_anchor_clusters
                  [(9 # 10, 9); (1 # 10, 2); (8 # 10, 0); (1%Q, 4)] (3 # 4) 3 5)).
  vm_compute.
  apply (perm_trans (l' := [0; 9; 4])); [apply perm_swap | apply perm_skip, perm_swap].
Defined.

(* ================================================================= *)
(** * Properties of [max_index] and [get_max_corr] *)

Lemma gt_true (a b : Q) : negb (Qle_bool a b) = true <-> (b < a)%Q.
Proof.
  rewrite negb_true_iff, <- not_true_iff_false, Qle_bool_iff.
  split; [apply Qnot_le_lt | apply Qlt_not_le].
Qed.

Lemma gt_false (a b : Q) : negb (Qle_bool a b) = false <-> (a <= b)%Q.
Proof. rewrite negb_false_iff. apply Qle_bool_iff. Qed.

(** The invariant of the scan: [max_value] is the entry at [max_index], no
    visited entry is larger, and every entry before [max_index] is
    smaller. *)
Lemma max_index_loop_first_max (rest pre : list Q) (max_value : Q) (max_idx : nat) :
  (max_idx < List.length (pre ++ rest))%nat ->
  nth max_idx (pre ++ rest) 0%Q = max_value ->
  (forall j, (j < List.length pre)%nat -> (nth j (pre ++ rest) 0 <= max_value)%Q) ->
  (forall j, (j < max_idx)%nat -> (nth j (pre ++ rest) 0 < max_value)%Q) ->
  (max_idx <= List.length pre)%nat ->
  exists r,
    max_index_loop (map Some rest) (List.length pre) (Some max_value) max_idx = inr r
    /\ first_max (pre ++ rest) r.
Proof.
  revert pre max_value max_idx.
  induction rest as [|v rest IH]; intros pre mv mi Hlt Hnth Hle Hbefore Hmi.
  - simpl. exists mi. split; [reflexivity|].
    rewrite app_nil_r in *. unfold first_max. rewrite Hnth. auto.
  - cbn [map max_index_loop gt bind].
    assert (Hv : nth (List.length pre) (pre ++ v :: rest) 0%Q = v) by apply nth_middle.
    assert (Happ : pre ++ v :: rest = (pre ++ [v]) ++ rest)
      by (rewrite <- app_assoc; reflexivity).
    assert (Hlen : List.length (pre ++ [v]) = S (List.length pre))
      by (rewrite length_app; simpl; lia).
    destruct (negb (Qle_bool v mv)) eqn:G.
    + apply gt_true in G.
      destruct (IH (pre ++ [v]) v (List.length pre)) as [r [E F]].
      * rewrite <- Happ, length_app. simpl. lia.
      * rewrite <- Happ. exact Hv.
      * rewrite <- Happ, Hlen. intros j Hj.
        destruct (Nat.eq_dec j (List.length pre)) as [-> | Hn].
        -- rewrite Hv. apply Qle_refl.
        -- apply Qlt_le_weak. eapply Qle_lt_trans; [apply Hle; lia | exact G].
      * rewrite <- Happ. intros j Hj.
        eapply Qle_lt_trans; [apply Hle; lia | exact G].
      * lia.
      * exists r. rewrite Hlen in E. rewrite Happ. split; assumption.
    + apply gt_false in G.
      destruct (IH (pre ++ [v]) mv mi) as [r [E F]].
      * rewrite <- Happ. exact Hlt.
      * rewrite <- Happ. exact Hnth.
      * rewrite <- Happ, Hlen. intros j Hj.
        destruct (Nat.eq_dec j (List.length pre)) as [-> | Hn].
        -- rewrite Hv. exact G.
        -- apply Hle. lia.
      * rewrite <- Happ. exact Hbefore.
      * lia.
      * exists r. rewrite Hlen in E. rewrite Happ. split; assumption.
Qed.

(** On a non-empty list of present scores, [max_index] returns the index of
    the first maximum. *)
Lemma max_index_first_max (scores : list Q) :
  scores <> [] ->
  exists i, max_index (map Some scores) = inr i /\ first_max scores i.
Proof.
  destruct scores as [|q scores]; [congruence|]. intros _.
  unfold max_index, index. cbn [map nth_error bind].
  apply (max_index_loop_first_max (q :: scores) [] q 0%nat); simpl; try lia.
  reflexivity.
Qed.

(** [get_max_corr] pairs that index with [-150 + index * 1], whatever sweep
    produced the scores. *)
Lemma get_max_corr_first_max (scores : list Q) :
  scores <> [] ->
  exists i, get_max_corr (map Some scores) = inr (i, -150 + Z.of_nat i * 1)
            /\ first_max scores i.
Proof.
  intros H. destruct (max_index_first_max scores H) as [i [E F]].
  exists i. unfold get_max_corr. rewrite E. split; [reflexivity | exact F].
Qed.

(* ================================================================= *)
(** * Properties of the verdict on one (window, reference) pair *)

Lemma high_filter_error (corr_scores : list (option Q * Z)) (threshold : Q) (e : exn) :
  high_filter corr_scores threshold = inl e -> e = TypeError.
Proof.
  induction corr_scores as [|[[c|] o] rest IH]; simpl; try congruence.
  destruct (high_filter rest threshold); simpl; [|discriminate].
  intros E. apply IH. exact E.
Qed.

Lemma high_filter_all_present (corr_scores high : list (option Q * Z)) (threshold : Q) :
  high_filter corr_scores threshold = inr high ->
  exists pairs, corr_scores = present pairs.
Proof.
  revert high; induction corr_scores as [|[[c|] o] rest IH]; simpl; intros high E.
  - exists []. reflexivity.
  - destruct (high_filter rest threshold) as [e|h]; simpl in E; [discriminate|].
    destruct (IH h eq_refl) as [pairs ->]. exists ((c, o) :: pairs). reflexivity.
  - discriminate.
Qed.

Lemma is_match_error (corr_scores : list (option Q * Z)) (threshold : Q) (m d : Z) (e : exn) :
  is_match corr_scores threshold m d = inl e -> e = TypeError.
Proof.
  unfold is_match. destruct (high_filter corr_scores threshold) eqn:H; simpl.
  - intros E. inversion E; subst. eapply high_filter_error. exact H.
  - destruct (len l <? m); discriminate.
Qed.

Lemma is_match_all_present (corr_scores : list (option Q * Z)) (threshold : Q)
    (m d : Z) (b : bool) :
  is_match corr_scores threshold m d = inr b ->
  exists pairs, corr_scores = present pairs.
Proof.
  unfold is_match. destruct (high_filter corr_scores threshold) eqn:H; simpl; [discriminate|].
  intros _. eapply high_filter_all_present. exact H.
Qed.

Lemma is_match_absent (corr_scores : list (option Q * Z)) (threshold : Q) (m d o : Z) :
  In (None, o) corr_scores -> is_match corr_scores threshold m d = inl TypeError.
Proof.
  intros H. unfold is_match. rewrite (high_filter_absent _ _ _ H). reflexivity.
Qed.

(** With one required member, a match means that some score reaches the
    threshold. *)
Lemma is_match_one_high (pairs : list (Q * Z)) (threshold : Q) (d : Z) :
  is_match (present pairs) threshold 1 d = inr true ->
  exists p, In p pairs /\ (threshold <= fst p)%Q.
Proof.
  rewrite is_match_present.
  destruct (Z.ltb_spec (len (Spec.high pairs threshold)) 1) as [L|L]; [discriminate|].
  intros _. unfold Spec.high in *.
  destruct (filter (fun p => Qle_bool threshold (fst p)) pairs) as [|p h] eqn:F.
  - unfold len in L. simpl in L. lia.
  - assert (I : In p (filter (fun p => Qle_bool threshold (fst p)) pairs))
      by (rewrite F; left; reflexivity).
    apply filter_In in I. destruct I as [I T].
    exists p. split; [exact I | apply Qle_bool_iff; exact T].
Qed.

Lemma combine_present (corr : list (option Q)) (offsets : list Z) (pairs : list (Q * Z)) :
  List.length corr = List.length offsets ->
  combine corr offsets = present pairs -> corr = map Some (map fst pairs).
Proof.
  revert offsets pairs; induction corr as [|c corr IH]; intros [|o offsets] [|p pairs] L E;
    simpl in *; try discriminate; try reflexivity.
  inversion E; subst. f_equal. eapply IH; [|eassumption]. lia.
Qed.

Lemma combine_absent (corr : list (option Q)) (offsets : list Z) :
  List.length corr = List.length offsets -> In None corr ->
  exists o, In (None, o) (combine corr offsets).
Proof.
  revert offsets; induction corr as [|c corr IH]; intros [|o offsets] L H;
    simpl in *; try tauto; try discriminate.
  destruct H as [-> | H].
  - exists o. left. reflexivity.
  - destruct (IH offsets ltac:(lia) H) as [o' Ho']. exists o'. right. exact Ho'.
Qed.

(** An absent score in the profile makes the verdict raise. *)
Lemma match_verdict_absent (dir : string) (offset : Z) (path : string)
    (corr : list (option Q)) (offsets : list Z) :
  List.length corr = List.length offsets -> In None corr ->
  match_verdict dir offset path corr offsets = inl TypeError.
Proof.
  intros L H. destruct (combine_absent corr offsets L H) as [o Ho].
  unfold match_verdict. cbv zeta. rewrite (is_match_absent _ _ _ _ _ Ho). reflexivity.
Qed.

(** The verdict raises nothing but that [TypeError], and a song it reports
    carries the first maximum of a profile without absent scores, which
    reaches the threshold. *)
Lemma match_verdict_cases (dir : string) (offset : Z) (path : string)
    (corr : list (option Q)) (offsets : list Z) :
  List.length corr = List.length offsets ->
  match_verdict dir offset path corr offsets = inl TypeError
  \/ match_verdict dir offset path corr offsets = inr NoMatch
  \/ exists scores i,
       corr = map Some scores /\ first_max scores i
       /\ (60 # 100 <= nth i scores 0)%Q
       /\ match_verdict dir offset path corr offsets
          = inr (Matched (replace (replace path (dir ++ "/") "") ".fpcalc" "",
                          (nth i scores 0 * 100)%Q, offset)
                         (-150 + Z.of_nat i * 1)).
Proof.
  intros L. unfold match_verdict. cbv zeta.
  destruct (is_match (combine corr offsets) (60 # 100) 1 5) as [e|[|]] eqn:M.
  - left. rewrite (is_match_error _ _ _ _ _ M). reflexivity.
  - right; right.
    destruct (is_match_all_present _ _ _ _ _ M) as [pairs P].
    pose proof (combine_present corr offsets pairs L P) as C.
    rewrite P in M. destruct (is_match_one_high pairs _ _ M) as [p [Ip Tp]].
    assert (N : map fst pairs <> []) by (destruct pairs; [destruct Ip | discriminate]).
    destruct (get_max_corr_first_max (map fst pairs) N) as [i [G F]].
    exists (map fst pairs), i. split; [exact C|]. split; [exact F|]. split.
    + destruct F as [_ [Fle _]].
      destruct (In_nth (map fst pairs) (fst p) 0%Q (in_map fst _ _ Ip)) as [j [Hj Ej]].
      rewrite <- Ej in Tp.
      eapply Qle_trans; [exact Tp | apply Fle; exact Hj].
    + rewrite C, G. cbn [bind]. unfold index.
      rewrite (nth_error_map Some i (map fst pairs)).
      destruct F as [Fi _].
      rewrite (nth_error_nth' (map fst pairs) 0%Q Fi). reflexivity.
  - right; left. reflexivity.
Qed.

(* ================================================================= *)
(** * Properties of [correlate] *)

Section CorrelateProperties.

Variable calculate_fingerprint : string -> Z -> Z -> result (list Z).
Variable get_fingerprint : string -> result (list Z).
Variable get_fingerprints : string -> list string.
Variable get_audio_duration : string -> result Z.

Local Abbreviation pair := (correlate_pair get_fingerprint).
Local Abbreviation references := (references_loop get_fingerprint).
Local Abbreviation windows := (windows_loop calculate_fingerprint get_fingerprint).
Local Abbreviation scan :=
  (correlate calculate_fingerprint get_fingerprint get_fingerprints get_audio_duration).

(** The window offsets visited by the scan of a recording of [duration]
    seconds. *)
Local Abbreviation window_offsets duration :=
  (range 0 (duration - sample_time + 1) 10).

(** [correlate] is the window loop once the duration is known, and ends with
    the exception of [get_audio_duration] otherwise. *)
Lemma correlate_duration (source dir : string) (duration : Z) :
  get_audio_duration source = inr duration ->
  scan source dir
  = windows source dir sample_time 10 (get_fingerprints dir) (window_offsets duration) [].
Proof. intros H. unfold correlate. rewrite H. reflexivity. Qed.

Lemma correlate_duration_error (source dir : string) (e : exn) :
  get_audio_duration source = inl e -> scan source dir = inl e.
Proof. intros H. unfold correlate. rewrite H. reflexivity. Qed.

Lemma correlate_returned (source dir : string) (songs : list found_song) :
  scan source dir = inr songs ->
  exists duration,
    get_audio_duration source = inr duration
    /\ windows source dir sample_time 10 (get_fingerprints dir)
         (window_offsets duration) [] = inr songs.
Proof.
  intros E. destruct (get_audio_duration source) as [e|duration] eqn:D.
  - rewrite (correlate_duration_error source dir e D) in E. discriminate.
  - exists duration. split; [reflexivity|].
    rewrite <- (correlate_duration source dir duration D). exact E.
Qed.

(** What the loop body does with a reference whose fingerprint was read:
    it skips the pair, or sweeps it with a span below both lengths and hands
    the profile to the verdict. *)
Lemma correlate_pair_cases (dir : string) (st offset : Z) (src : list Z)
    (path : string) (short : list Z) :
  st <> 0 -> get_fingerprint path = inr short ->
  ((short = [] \/ src = [] \/ span_to_use src short < min_overlap)
   /\ pair dir st offset src path = inr Skipped)
  \/ (short <> [] /\ src <> []
      /\ min_overlap <= span_to_use src short
      /\ span_to_use src short < Z.min (len src) (len short)
      /\ exists corr offsets,
           compare src short (span_to_use src short) st = inr corr
           /\ arange (- span_to_use src short) (span_to_use src short + 1) st = inr offsets
           /\ List.length corr = List.length offsets
           /\ pair dir st offset src path = match_verdict dir offset path corr offsets).
Proof.
  intros Hst Hfp. unfold correlate_pair. rewrite Hfp. cbn [bind].
  destruct (Z.eqb_spec (len short) 0) as [E|E].
  { left. split; [left; apply len_0_nil; exact E | reflexivity]. }
  destruct (Z.eqb_spec (len src) 0) as [E'|E'].
  { left. split; [right; left; apply len_0_nil; exact E' | reflexivity]. }
  cbn [orb].
  destruct (Z.ltb_spec (span_to_use src short) min_overlap) as [L|L].
  { left. split; [right; right; exact L | reflexivity]. }
  right.
  assert (B : span_to_use src short < Z.min (len src) (len short))
    by (unfold span_to_use; lia).
  destruct (compare_sweep src short (span_to_use src short) st ltac:(lia) Hst)
    as [corr [C F]].
  split; [rewrite <- len_0_nil; exact E|]. split; [rewrite <- len_0_nil; exact E'|].
  split; [exact L|]. split; [exact B|].
  exists corr. eexists. rewrite C. cbn [bind]. unfold arange.
  destruct (Z.eqb_spec st 0) as [|_]; [contradiction|]. cbn [bind].
  split; [reflexivity|]. split; [reflexivity|]. split; [|reflexivity].
  symmetry. exact (Forall2_length_eq _ _ _ F).
Qed.

(** The only exceptions the loop body lets through are the [TypeError] of
    the verdict and a failure to read the reference. *)
Lemma correlate_pair_error (dir : string) (st offset : Z) (src : list Z)
    (path : string) (e : exn) :
  st <> 0 -> pair dir st offset src path = inl e ->
  e = TypeError \/ get_fingerprint path = inl e.
Proof.
  intros Hst E. destruct (get_fingerprint path) as [e'|short] eqn:Hfp.
  - right. unfold correlate_pair in E. rewrite Hfp in E. cbn [bind] in E. congruence.
  - left. destruct (correlate_pair_cases dir st offset src path short Hst Hfp)
      as [[_ S] | [_ [_ [_ [_ [corr [offsets [_ [_ [L V]]]]]]]]]]; [congruence|].
    rewrite V in E.
    destruct (match_verdict_cases dir offset path corr offsets L)
      as [T | [T | [scores [i [_ [_ [_ T]]]]]]]; congruence.
Qed.

(** A song reported for a pair. *)
Lemma correlate_pair_matched (dir : string) (st offset : Z) (src : list Z)
    (path : string) (found : found_song) (max_corr_offset : Z) :
  st <> 0 -> pair dir st offset src path = inr (Matched found max_corr_offset) ->
  exists short corr scores i,
    get_fingerprint path = inr short
    /\ compare src short (span_to_use src short) st = inr corr
    /\ corr = map Some scores /\ first_max scores i
    /\ (60 # 100 <= nth i scores 0)%Q
    /\ found = (replace (replace path (dir ++ "/") "") ".fpcalc" "",
                (nth i scores 0 * 100)%Q, offset).
Proof.
  intros Hst E. destruct (get_fingerprint path) as [e'|short] eqn:Hfp.
  - unfold correlate_pair in E. rewrite Hfp in E. cbn [bind] in E. discriminate.
  - destruct (correlate_pair_cases dir st offset src path short Hst Hfp)
      as [[_ S] | [_ [_ [_ [_ [corr [offsets [C [_ [L V]]]]]]]]]]; [congruence|].
    rewrite V in E.
    destruct (match_verdict_cases dir offset path corr offsets L)
      as [T | [T | [scores [i [Hc [F [Th T]]]]]]]; try congruence.
    rewrite T in E. inversion E; subst found max_corr_offset.
    exists short, corr, scores, i. repeat split; try assumption; apply F.
Qed.

(** The reference loop only appends, and what it appends was reported for
    one of the references. *)
Lemma references_loop_appends (dir : string) (st offset : Z) (src : list Z)
    (fingerprints : list string) (found_songs found_songs' : list found_song) :
  references dir st offset src fingerprints found_songs = inr found_songs' ->
  exists new,
    found_songs' = found_songs ++ new
    /\ Forall (fun found => exists path mo,
                 In path fingerprints
                 /\ pair dir st offset src path = inr (Matched found mo)) new.
Proof.
  revert found_songs; induction fingerprints as [|path fps IH]; intros acc; simpl.
  - intros E. inversion E. exists []. rewrite app_nil_r. split; [reflexivity | constructor].
  - destruct (pair dir st offset src path) as [e|o] eqn:P; cbn [bind]; [discriminate|].
    intros E. apply IH in E. destruct E as [new [-> F]].
    assert (F' : Forall (fun found => exists path' mo,
                  (path = path' \/ In path' fps)
                  /\ pair dir st offset src path' = inr (Matched found mo)) new).
    { eapply Forall_impl; [|exact F]. cbv beta.
      intros f [p' [mo [I M]]]. exists p', mo. split; [right; exact I | exact M]. }
    destruct o as [| |found mo].
    + exists new. split; [reflexivity | exact F'].
    + exists new. split; [reflexivity | exact F'].
    + exists (found :: new). rewrite <- app_assoc. split; [reflexivity|].
      constructor; [|exact F'].
      exists path, mo. split; [left; reflexivity | exact P].
Qed.

Lemma references_loop_error (dir : string) (st offset : Z) (src : list Z)
    (fingerprints : list string) (found_songs : list found_song) (e : exn) :
  references dir st offset src fingerprints found_songs = inl e ->
  exists path, In path fingerprints /\ pair dir st offset src path = inl e.
Proof.
  revert found_songs; induction fingerprints as [|path fps IH]; intros acc; simpl.
  - discriminate.
  - destruct (pair dir st offset src path) as [e'|o] eqn:P; cbn [bind].
    + intros E. inversion E; subst. exists path. split; [left; reflexivity | exact P].
    + intros E. apply IH in E. destruct E as [p [I Q]].
      exists p. split; [right; exact I | exact Q].
Qed.

Lemma references_loop_aborts (dir : string) (st offset : Z) (src : list Z)
    (fingerprints : list string) (found_songs : list found_song) (path : string) (e : exn) :
  In path fingerprints -> pair dir st offset src path = inl e ->
  exists e', references dir st offset src fingerprints found_songs = inl e'.
Proof.
  revert found_songs; induction fingerprints as [|p fps IH]; intros acc I P;
    simpl in *; [tauto|].
  destruct (pair dir st offset src p) as [e'|o] eqn:Q; cbn [bind].
  - exists e'. reflexivity.
  - destruct I as [-> | I]; [congruence|]. apply IH; assumption.
Qed.

(** The same three facts for the window loop. *)
Lemma windows_loop_appends (source dir : string) (window st : Z)
    (fingerprints : list string) (offsets : list Z)
    (found_songs found_songs' : list found_song) :
  windows source dir window st fingerprints offsets found_songs = inr found_songs' ->
  exists new,
    found_songs' = found_songs ++ new
    /\ Forall (fun found => exists offset src path mo,
                 In offset offsets
                 /\ calculate_fingerprint source offset window = inr src
                 /\ In path fingerprints
                 /\ pair dir st offset src path = inr (Matched found mo)) new.
Proof.
  revert found_songs; induction offsets as [|w ws IH]; intros acc; simpl.
  - intros E. inversion E. exists []. rewrite app_nil_r. split; [reflexivity | constructor].
  - assert (W : forall new,
        Forall (fun found => exists offset src path mo,
                  In offset ws
                  /\ calculate_fingerprint source offset window = inr src
                  /\ In path fingerprints
                  /\ pair dir st offset src path = inr (Matched found mo)) new ->
        Forall (fun found => exists offset src path mo,
                  (w = offset \/ In offset ws)
                  /\ calculate_fingerprint source offset window = inr src
                  /\ In path fingerprints
                  /\ pair dir st offset src path = inr (Matched found mo)) new).
    { intros new F. eapply Forall_impl; [|exact F]. cbv beta.
      intros f [o [s [p [mo [I R]]]]]. exists o, s, p, mo. split; [right; exact I | exact R]. }
    destruct (calculate_fingerprint source w window) as [e|src] eqn:C.
    + intros E. apply IH in E. destruct E as [new [-> F]].
      exists new. split; [reflexivity | apply W; exact F].
    + destruct (references dir st w src fingerprints acc) as [e|acc1] eqn:R;
        cbn [bind]; [discriminate|].
      intros E. apply IH in E. destruct E as [new2 [-> F2]].
      apply references_loop_appends in R. destruct R as [new1 [-> F1]].
      exists (new1 ++ new2). rewrite app_assoc. split; [reflexivity|].
      apply Forall_app. split; [|apply W; exact F2].
      eapply Forall_impl; [|exact F1]. cbv beta.
      intros f [p [mo [I M]]]. exists w, src, p, mo.
      split; [left; reflexivity|]. split; [exact C|]. split; assumption.
Qed.

Lemma windows_loop_error (source dir : string) (window st : Z)
    (fingerprints : list string) (offsets : list Z)
    (found_songs : list found_song) (e : exn) :
  windows source dir window st fingerprints offsets found_songs = inl e ->
  exists offset src path,
    In offset offsets /\ calculate_fingerprint source offset window = inr src
    /\ In path fingerprints /\ pair dir st offset src path = inl e.
Proof.
  revert found_songs; induction offsets as [|w ws IH]; intros acc; simpl; [discriminate|].
  destruct (calculate_fingerprint source w window) as [e'|src] eqn:C.
  - intros E. apply IH in E. destruct E as [o [s [p [I R]]]].
    exists o, s, p. split; [right; exact I | exact R].
  - destruct (references dir st w src fingerprints acc) as [e'|acc1] eqn:R; cbn [bind].
    + intros E. inversion E; subst.
      apply references_loop_error in R. destruct R as [p [I P]].
      exists w, src, p. split; [left; reflexivity|]. split; [exact C|]. split; assumption.
    + intros E. apply IH in E. destruct E as [o [s [p [I R']]]].
      exists o, s, p. split; [right; exact I | exact R'].
Qed.

Lemma windows_loop_aborts (source dir : string) (window st : Z)
    (fingerprints : list string) (offsets : list Z)
    (found_songs : list found_song) (offset : Z) (src : list Z) (path : string) (e : exn) :
  In offset offsets -> calculate_fingerprint source offset window = inr src ->
  In path fingerprints -> pair dir st offset src path = inl e ->
  exists e', windows source dir window st fingerprints offsets found_songs = inl e'.
Proof.
  intros I C Ip P. revert found_songs I.
  induction offsets as [|w ws IH]; intros acc I; simpl in *; [tauto|].
  destruct (calculate_fingerprint source w window) as [e'|src'] eqn:C'.
  - destruct I as [-> | I]; [congruence|]. apply IH. exact I.
  - destruct (references dir st w src' fingerprints acc) as [e'|acc1] eqn:R; cbn [bind].
    + exists e'. reflexivity.
    + destruct I as [-> | I]; [|apply IH; exact I].
      assert (src' = src) by congruence. subst src'.
      destruct (references_loop_aborts dir st offset src fingerprints acc path e Ip P)
        as [e' R'].
      congruence.
Qed.


(** C3. [is_match] raises a [TypeError] on every score list that contains an
    absent score, instead of filtering the entry out; and since [correlate]
    hands the sweep to [is_match] as it is and catches nothing there, a
    pair that is swept and whose profile contains an absent score makes the
    loop body raise that [TypeError] and the whole scan end with an
    exception. *)
Theorem absent_score_aborts_scan :
  (forall corr_scores threshold min_consistent_offsets max_offset_deviation o,
     In (None, o) corr_scores ->
     is_match corr_scores threshold min_consistent_offsets max_offset_deviation
     = inl TypeError)
  /\ (forall source dir duration offset src path short corr,
        get_audio_duration source = inr duration ->
        In offset (window_offsets duration) ->
        calculate_fingerprint source offset sample_time = inr src ->
        In path (get_fingerprints dir) ->
        get_fingerprint path = inr short ->
        short <> [] -> src <> [] -> min_overlap <= span_to_use src short ->
        compare src short (span_to_use src short) 10 = inr corr ->
        In None corr ->
        pair dir 10 offset src path = inl TypeError
        /\ exists e, scan source dir = inl e).
Proof.
  split; [intros; eapply is_match_absent; eassumption|].
  intros source dir duration offset src path short corr D Iw C Ip G Hs Hx Hm Hc Hn.
  assert (P : pair dir 10 offset src path = inl TypeError).
  { destruct (correlate_pair_cases dir 10 offset src path short ltac:(lia) G)
      as [[[S | [S | S]] _] | [_ [_ [_ [_ [corr' [offsets [C' [_ [L V]]]]]]]]]];
      try contradiction; [lia|].
    assert (corr' = corr) by congruence. subst corr'.
    rewrite V. apply match_verdict_absent; assumption. }
  split; [exact P|].
  rewrite (correlate_duration source dir duration D).
  eapply windows_loop_aborts; eassumption.
Qed.

(** C6. For a pair whose reference was read, [span_to_use] is
    [min(span, min(len(source), len(reference)) - 1)]; the pair is skipped
    when that is below [min_overlap]; a pair that is not skipped is swept
    with a span strictly below both lengths, so [compare] returns a profile
    there.  The guard of [compare] is thus never the source of an exception
    of the scan: an exception that ends [correlate] is the [TypeError] of
    the verdict, a failure to read a reference, or the failure of
    [get_audio_duration] before the first window. *)
Theorem scan_span_below_lengths :
  (forall dir offset src path short,
     get_fingerprint path = inr short ->
     span_to_use src short = Z.min span (Z.min (len src) (len short) - 1)
     /\ (span_to_use src short < min_overlap ->
         pair dir 10 offset src path = inr Skipped)
     /\ (pair dir 10 offset src path <> inr Skipped ->
         min_overlap <= span_to_use src short
         /\ span_to_use src short < Z.min (len src) (len short)
         /\ exists corr, compare src short (span_to_use src short) 10 = inr corr))
  /\ (forall source dir e,
        scan source dir = inl e ->
        e = TypeError
        \/ (exists path, In path (get_fingerprints dir) /\ get_fingerprint path = inl e)
        \/ get_audio_duration source = inl e).
Proof.
  split.
  - intros dir offset src path short G. split; [reflexivity|].
    destruct (correlate_pair_cases dir 10 offset src path short ltac:(lia) G)
      as [[_ S] | [_ [_ [M [B [corr [offsets [C _]]]]]]]].
    + split; [intros _; exact S | intros N; contradiction].
    + split; [intros L; lia|]. intros _. split; [exact M|]. split; [exact B|].
      exists corr. exact C.
  - intros source dir e E.
    destruct (get_audio_duration source) as [e'|duration] eqn:D.
    { rewrite (correlate_duration_error source dir e' D) in E.
      right; right. congruence. }
    rewrite (correlate_duration source dir duration D) in E.
    apply windows_loop_error in E. destruct E as [w [src [path [_ [_ [Ip P]]]]]].
    apply correlate_pair_error in P; [|lia].
    destruct P as [-> | P]; [left; reflexivity|].
    right; left. exists path. split; assumption.
Qed.


(** C10. A song of the result of [correlate] comes from a window of the scan
    and a reference whose profile has no absent score; its confidence is the
    maximum score of that profile times 100, which is at least 60 (the
    threshold 0.60 times 100), and its timestamp is the offset of the
    window. *)
Theorem found_song_confidence (source dir : string) (songs : list found_song)
    (name : string) (confidence : Q) (timestamp : Z) :
  scan source dir = inr songs ->
  In (name, confidence, timestamp) songs ->
  exists duration src path short corr scores i,
    get_audio_duration source = inr duration
    /\ In timestamp (window_offsets duration)
    /\ calculate_fingerprint source timestamp sample_time = inr src
    /\ In path (get_fingerprints dir)
    /\ get_fingerprint path = inr short
    /\ compare src short (span_to_use src short) 10 = inr corr
    /\ corr = map Some scores
    /\ first_max scores i
    /\ confidence = (nth i scores 0 * 100)%Q
    /\ ((60 # 100) * 100 <= confidence)%Q
    /\ (60 <= confidence)%Q.
Proof.
  intros E I. apply correlate_returned in E. destruct E as [duration [D E]].
  apply windows_loop_appends in E. destruct E as [new [-> F]].
  simpl in I. rewrite Forall_forall in F.
  destruct (F _ I) as [w [src [path [mo [Iw [C [Ip P]]]]]]].
  apply correlate_pair_matched in P; [|lia].
  destruct P as [short [corr [scores [i [G [Cmp [Hc [Fm [Th P]]]]]]]]].
  inversion P; subst name confidence timestamp.
  exists duration, src, path, short, corr, scores, i.
  repeat (split; [assumption|]).
  split; [reflexivity|].
  assert (T : ((60 # 100) * 100 <= nth i scores 0 * 100)%Q)
    by (apply Qmult_le_compat_r; [exact Th | discriminate]).
  split; [exact T|].
  eapply Qle_trans; [|exact T]. discriminate.
Qed.

End CorrelateProperties.

Lemma absent_score_aborts_scan_witness :
  correlate_pair Example.get_fingerprint "short" 10 0 (ramp 200) "short/song.mp3.fpcalc"
  = inl TypeError
  /\ exists e, Example.scan "input.mp4" "short" = inl e.
Proof.
  eapply (proj2 (absent_score_aborts_scan Example.calculate_fingerprint
                   Example.get_fingerprint Example.get_fingerprints
                   Example.get_audio_duration)
            "input.mp4"%string "short"%string 520 0 (ramp 200)
            "short/song.mp3.fpcalc"%string (ramp 25)).
  - reflexivity.
  - vm_compute. left. reflexivity.
  - reflexivity.
  - left. reflexivity.
  - reflexivity.
  - discriminate.
  - discriminate.
  - vm_compute. discriminate.
  - vm_compute. reflexivity.
  - left. reflexivity.
Defined.

Lemma scan_span_below_lengths_witness :
  correlate_pair Example.get_fingerprint "short" 10 0 (ramp 19) "short/song.mp3.fpcalc"
  = inr Skipped
  /\ (exists corr,
        compare (ramp 200) (ramp 25) (span_to_use (ramp 200) (ramp 25)) 10 = inr corr)
  /\ (TypeError = TypeError
      \/ (exists path, In path (Example.get_fingerprints "short")
                       /\ Example.get_fingerprint path = inl TypeError)
      \/ Example.get_audio_duration "input.mp4" = inl TypeError).
Proof.
  destruct (proj1 (scan_span_below_lengths Example.calculate_fingerprint
                     Example.get_fingerprint Example.get_fingerprints
                     Example.get_audio_duration)
              "short"%string 0 (ramp 19) "short/song.mp3.fpcalc"%string (ramp 25) eq_refl)
    as [_ [S _]].
  destruct (proj1 (scan_span_below_lengths Example.calculate_fingerprint
                     Example.get_fingerprint Example.get_fingerprints
                     Example.get_audio_duration)
              "short"%string 0 (ramp 200) "short/song.mp3.fpcalc"%string (ramp 25) eq_refl)
    as [_ [_ N]].
  split; [|split].
  - apply S. vm_compute. reflexivity.
  - apply N. vm_compute. discriminate.
  - apply (proj2 (scan_span_below_lengths Example.calculate_fingerprint
                    Example.get_fingerprint Example.get_fingerprints
                    Example.get_audio_duration)
             "input.mp4"%string "short"%string TypeError).
    vm_compute. reflexivity.
Defined.


Lemma found_song_confidence_witness :
  exists songs confidence,
    Example.scan "input.mp4" "fingerprints" = inr songs
    /\ In ("song.mp3"%string, confidence, 20) songs
    /\ (60 <= confidence)%Q /\ (confidence == 100)%Q.
Proof.
  destruct (Example.scan "input.mp4"%string "fingerprints"%string) as [e|songs] eqn:E;
    [vm_compute in E; discriminate|].
  assert (I : exists confidence,
             In ("song.mp3"%string, confidence, 20) songs /\ (confidence == 100)%Q).
  { vm_compute in E. inversion E. eexists. split; [right; left; reflexivity|].
    reflexivity. }
  destruct I as [confidence [I Q]].
  exists songs, confidence. split; [reflexivity|]. split; [exact I|]. split; [|exact Q].
  destruct (found_song_confidence Example.calculate_fingerprint
              Example.get_fingerprint Example.get_fingerprints
              Example.get_audio_duration
              "input.mp4"%string "fingerprints"%string songs "song.mp3"%string confidence 20 E I)
    as [duration [src [path [short [corr [scores [i H]]]]]]].
  apply H.
Defined.

(** C4. [max_index] returns the index of the first maximum, but
    [get_max_corr] computes the offset from the module constants
    [span = 150] and [step = 1], not from the span and step of the sweep
    that produced the scores.  For the sweep of two copies of a 40-frame
    fingerprint with span 20 and step 10, the maximum is at index 2, whose
    offset in the sweep is 0, and the function returns -148; in the scan of
    a 200-frame window against itself (span 150, step 10) the maximum is at
    index 15, at offset 0, and the offset reported is -135. *)
Theorem get_max_corr_uses_module_constants :
  (exists corr offsets,
     compare (ramp 40) (ramp 40) 20 10 = inr corr
     /\ arange (- 20) (20 + 1) 10 = inr offsets
     /\ get_max_corr corr = inr (2%nat, -148)
     /\ nth 2 offsets 0 = - 20 + 2 * 10
     /\ -148 <> - 20 + 2 * 10)
  /\ (exists confidence,
        correlate_pair Example.get_fingerprint "fingerprints" 10 0 (ramp 200)
          "fingerprints/song.mp3.fpcalc"
        = inr (Matched ("song.mp3"%string, confidence, 0) (-135))
        /\ nth 15 (progression (- 150) 10 31) 0 = 0).
Proof.
  split.
  - do 2 eexists. split; [vm_compute; reflexivity|].
    split; [vm_compute; reflexivity|].
    split; [vm_compute; reflexivity|].
    split; [reflexivity | discriminate].
  - eexists. split; [vm_compute; reflexivity | reflexivity].
Qed.

(* ================================================================= *)
(** * Further properties of [correlation] *)

Lemma combine_swap (x y : list Z) :
  map frame_score (combine y x) = map frame_score (combine x y).
Proof.
  revert y; induction x as [|a x IH]; intros [|b y]; simpl; try reflexivity.
  rewrite IH. unfold frame_score at 1 3. simpl. rewrite Z.lxor_comm. reflexivity.
Qed.

Lemma correlation_comm (x y : list Z) :
  correlation x y = correlation y x.
Proof.
  destruct x as [|a x].
  { rewrite !correlation_empty by auto. reflexivity. }
  destruct y as [|b y].
  { rewrite !correlation_empty by auto. reflexivity. }
  rewrite !correlation_value by discriminate.
  rewrite combine_swap, Nat.min_comm. reflexivity.
Qed.

(** The score does not depend on which fingerprint comes first. *)
Theorem correlation_symmetric (x y : list Z) :
  correlation x y = correlation y x.
Proof. apply correlation_comm. Qed.

Lemma combine_firstn_r (x y : list Z) :
  combine x (firstn (List.length x) y) = combine x y.
Proof.
  revert y; induction x as [|a x IH]; intros [|b y]; simpl; try reflexivity.
  rewrite IH. reflexivity.
Qed.

Lemma correlation_firstn (x y : list Z) :
  let n := Nat.min (List.length x) (List.length y) in
  correlation x y = correlation (firstn n x) (firstn n y)
  /\ correlation x y = correlation x (firstn (List.length x) y).
Proof.
  intros n. destruct x as [|a x].
  { split; rewrite !correlation_empty; auto. }
  destruct y as [|b y].
  { split; rewrite !correlation_empty; auto. }
  split.
  - rewrite (correlation_value (a :: x) (b :: y)) by discriminate.
    rewrite (correlation_value (firstn n (a :: x)) (firstn n (b :: y)))
      by (subst n; simpl; discriminate).
    subst n. rewrite combine_firstn_min.
    rewrite !length_firstn.
    replace (Nat.min
               (Nat.min (Nat.min (List.length (a :: x)) (List.length (b :: y)))
                  (List.length (a :: x)))
               (Nat.min (Nat.min (List.length (a :: x)) (List.length (b :: y)))
                  (List.length (b :: y))))
      with (Nat.min (List.length (a :: x)) (List.length (b :: y))) by lia.
    reflexivity.
  - rewrite (correlation_value (a :: x) (b :: y)) by discriminate.
    rewrite (correlation_value (a :: x) (firstn (List.length (a :: x)) (b :: y)))
      by (simpl; discriminate).
    rewrite combine_firstn_r, length_firstn.
    replace (Nat.min (List.length (a :: x))
               (Nat.min (List.length (a :: x)) (List.length (b :: y))))
      with (Nat.min (List.length (a :: x)) (List.length (b :: y))) by lia.
    reflexivity.
Qed.

(** Only the frames up to the length of the shorter fingerprint count: the
    score of [x] and [y] is the score of their prefixes of that length, and
    cutting [y] to the length of [x] changes nothing. *)
Theorem correlation_truncation (x y : list Z) :
  let n := Nat.min (List.length x) (List.length y) in
  correlation x y = correlation (firstn n x) (firstn n y)
  /\ correlation x y = correlation x (firstn (List.length x) y).
Proof. apply correlation_firstn. Qed.

Lemma Zsum_bounds (l : list (Z * Z)) (lo hi : Z) :
  Forall (fun p => lo <= frame_score p <= hi) l ->
  lo * len l <= Zsum (map frame_score l) <= hi * len l.
Proof.
  unfold len, Zsum. induction 1 as [|p l Hp _ IH].
  - simpl. rewrite !Z.mul_0_r. lia.
  - cbn [map fold_right List.length]. rewrite Nat2Z.inj_succ, !Z.mul_succ_r. lia.
Qed.

Lemma mean_bounds (total n : Z) :
  0 < n -> 0 <= total <= 32 * n ->
  (0 <= inject_Z total / inject_Z n / 32 <= 1)%Q.
Proof.
  intros Hn [H0 H1].
  assert (Pn : (0 < inject_Z n)%Q) by (unfold Qlt; simpl; lia).
  split.
  - apply Qle_shift_div_l; [reflexivity|].
    apply Qle_shift_div_l; [exact Pn|].
    unfold Qle, Qmult, inject_Z; cbn [Qnum Qden]. lia.
  - apply Qle_shift_div_r; [reflexivity|].
    apply Qle_shift_div_r; [exact Pn|].
    unfold Qle, Qmult, inject_Z; cbn [Qnum Qden]. lia.
Qed.

Lemma set_bits_bounds (n : Z) (width : nat) :
  0 <= Spec.set_bits n width <= Z.of_nat width.
Proof.
  unfold Spec.set_bits. split; [lia|].
  pose proof (filter_length_le (Z.testbit n) (map Z.of_nat (seq 0 width))) as L.
  rewrite length_map, length_seq in L. lia.
Qed.

Lemma combine_Forall (P : Z -> Prop) (x y : list Z) :
  Forall P x -> Forall P y ->
  Forall (fun p => P (fst p) /\ P (snd p)) (combine x y).
Proof.
  intros Hx; revert y; induction Hx as [|a x Ha _ IH]; intros y Hy; simpl.
  - constructor.
  - destruct Hy as [|b y Hb Hy]; constructor; [split; assumption | apply IH; exact Hy].
Qed.

(** On fingerprints of 32-bit frames the score lies between 0 and 1. *)
Theorem correlation_range (x y : list Z) (q : Q) :
  Forall frame_32_bit x -> Forall frame_32_bit y ->
  correlation x y = inr q -> (0 <= q <= 1)%Q.
Proof.
  intros Fx Fy E.
  assert (Hx : x <> []) by (intros ->; rewrite correlation_empty in E by auto; discriminate).
  assert (Hy : y <> []) by (intros ->; rewrite correlation_empty in E by auto; discriminate).
  rewrite correlation_value in E by assumption. injection E as <-.
  assert (B : Forall (fun p => 0 <= frame_score p <= 32) (combine x y)).
  { eapply Forall_impl; [|apply (combine_Forall frame_32_bit); eassumption].
    intros [u v] [Hu Hv]. unfold frame_score. simpl fst; simpl snd.
    rewrite (bin_count_1_set_bits 32) by (apply lxor_32_bit; assumption).
    pose proof (set_bits_bounds (Z.lxor u v) 32). lia. }
  apply Zsum_bounds in B. unfold len in B. rewrite length_combine in B.
  apply mean_bounds; [|lia].
  destruct x; [congruence|]. destruct y; [congruence|]. simpl List.length. lia.
Qed.

Lemma correlation_range_witness :
  exists q, correlation (ramp 40) (ramp 45) = inr q /\ (0 <= q <= 1)%Q.
Proof.
  eexists. split; [vm_compute; reflexivity|].
  apply (correlation_range (ramp 40) (ramp 45)).
  - apply Forall_forall. intros a H. apply in_map_iff in H.
    destruct H as [i [<- H]]. apply in_seq in H. unfold frame_32_bit. lia.
  - apply Forall_forall. intros a H. apply in_map_iff in H.
    destruct H as [i [<- H]]. apply in_seq in H. unfold frame_32_bit. lia.
  - vm_compute. reflexivity.
Defined.

Lemma Zsum_self (x : list Z) :
  Zsum (map frame_score (combine x x)) = 32 * len x.
Proof.
  unfold len. induction x as [|a x IH]; [reflexivity|].
  cbn [combine map Zsum fold_right List.length]. unfold Zsum in IH. rewrite IH.
  unfold frame_score. simpl fst; simpl snd. rewrite Z.lxor_nilpotent. simpl bin_count_1. lia.
Qed.

(** A non-empty fingerprint agrees fully with itself, whatever its frames
    are. *)
Theorem correlation_self (x : list Z) :
  x <> [] -> exists q, correlation x x = inr q /\ (q == 1)%Q.
Proof.
  intros Hx. eexists. split; [apply correlation_value; assumption|].
  rewrite Zsum_self, Nat.min_id. unfold len.
  assert (N : ~ (inject_Z (Z.of_nat (List.length x)) == 0)%Q).
  { destruct x; [congruence|]. unfold Qeq; simpl. lia. }
  rewrite inject_Z_mult. field. exact N.
Qed.

Lemma correlation_self_witness :
  exists q, correlation [7; -3; 4294967296] [7; -3; 4294967296] = inr q /\ Qeq q 1.
Proof. apply (correlation_self [7; -3; 4294967296]). discriminate. Defined.

(* ================================================================= *)
(** * Further properties of [cross_correlation] *)

Lemma len_slice_from {A} (l : list A) (n : Z) :
  0 <= n -> len (slice_from l n) = Z.max (len l - n) 0.
Proof. intros H. unfold len, slice_from. rewrite length_skipn. lia. Qed.

Lemma len_slice_to {A} (l : list A) (n : Z) :
  0 <= n -> len (slice_to l n) = Z.min n (len l).
Proof. intros H. unfold len, slice_to. rewrite length_firstn. lia. Qed.

Lemma slice_to_len {A B} (l : list A) (l' : list B) :
  slice_to l (len l') = firstn (List.length l') l.
Proof. unfold slice_to, len. rewrite Nat2Z.id. reflexivity. Qed.

(** A positive offset drops the first frames of [listx], a negative one the
    first frames of [listy]; the other list needs no cut of its own. *)
Lemma cross_correlation_pos (x y : list Z) (offset : Z) :
  0 < offset ->
  cross_correlation x y offset
  = if Z.min (len (slice_from x offset)) (len y) <? min_overlap then inr None
    else c <- correlation (slice_from x offset) y ;; ret (Some c).
Proof.
  intros H. unfold cross_correlation.
  destruct (Z.gtb_spec offset 0) as [_|]; [|lia].
  rewrite slice_to_len.
  replace (Z.min (len (slice_from x offset))
             (len (firstn (List.length (slice_from x offset)) y)))
    with (Z.min (len (slice_from x offset)) (len y))
    by (unfold len; rewrite length_firstn; lia).
  rewrite <- (proj2 (correlation_firstn (slice_from x offset) y)). reflexivity.
Qed.

Lemma cross_correlation_neg (x y : list Z) (offset : Z) :
  offset < 0 ->
  cross_correlation x y offset
  = if Z.min (len x) (len (slice_from y (- offset))) <? min_overlap then inr None
    else c <- correlation x (slice_from y (- offset)) ;; ret (Some c).
Proof.
  intros H. unfold cross_correlation.
  destruct (Z.gtb_spec offset 0) as [|_]; [lia|].
  destruct (Z.ltb_spec offset 0) as [_|]; [|lia].
  rewrite slice_to_len.
  replace (Z.min (len (firstn (List.length (slice_from y (- offset))) x))
             (len (slice_from y (- offset))))
    with (Z.min (len x) (len (slice_from y (- offset))))
    by (unfold len; rewrite length_firstn; lia).
  rewrite (correlation_comm (firstn _ x)).
  rewrite <- (proj2 (correlation_firstn (slice_from y (- offset)) x)).
  rewrite (correlation_comm x). reflexivity.
Qed.

Lemma cross_correlation_zero (x y : list Z) :
  cross_correlation x y 0
  = if Z.min (len x) (len y) <? min_overlap then inr None
    else c <- correlation x y ;; ret (Some c).
Proof. reflexivity. Qed.

(** The three cases together: the guard of [cross_correlation]
    compares [overlap] with [min_overlap]. *)
Lemma cross_correlation_guard (x y : list Z) (offset : Z) :
  (overlap (len x) (len y) offset < min_overlap ->
   cross_correlation x y offset = inr None)
  /\ (min_overlap <= overlap (len x) (len y) offset ->
      exists c, cross_correlation x y offset = inr (Some c)).
Proof.
  assert (G : forall lx ly : list Z,
             (Z.min (len lx) (len ly) < min_overlap ->
              (if Z.min (len lx) (len ly) <? min_overlap then inr None
               else c <- correlation lx ly ;; ret (Some c)) = inr None)
             /\ (min_overlap <= Z.min (len lx) (len ly) ->
                 exists c,
                   (if Z.min (len lx) (len ly) <? min_overlap then inr None
                    else c <- correlation lx ly ;; ret (Some c)) = inr (Some c))).
  { intros lx ly. destruct (Z.ltb_spec (Z.min (len lx) (len ly)) min_overlap) as [L|L].
    - split; [reflexivity | lia].
    - split; [lia|]. intros _. unfold min_overlap in L.
      assert (Hx : lx <> []) by (intros ->; unfold len in L; simpl in L; lia).
      assert (Hy : ly <> []) by (intros ->; unfold len in L; simpl in L; lia).
      rewrite (correlation_value lx ly Hx Hy). eexists. reflexivity. }
  unfold overlap.
  destruct (Z.gtb_spec offset 0) as [P|P].
  - rewrite cross_correlation_pos by lia.
    rewrite <- (len_slice_from x offset) by lia. apply G.
  - destruct (Z.ltb_spec offset 0) as [N|N].
    + rewrite cross_correlation_neg by lia.
      replace (len y + offset) with (len y - - offset) by lia.
      rewrite <- (len_slice_from y (- offset)) by lia. apply G.
    + assert (offset = 0) by lia. subst. rewrite cross_correlation_zero. apply G.
Qed.

(** The soft failure of [cross_correlation]: it returns [None] exactly when
    fewer than [min_overlap] = 20 frames overlap after the shift, and a score
    otherwise. *)
Theorem cross_correlation_none_iff (x y : list Z) (offset : Z) :
  (cross_correlation x y offset = inr None
   <-> overlap (len x) (len y) offset < 20)
  /\ ((exists c, cross_correlation x y offset = inr (Some c))
      <-> 20 <= overlap (len x) (len y) offset).
Proof.
  destruct (cross_correlation_guard x y offset) as [Lo Hi]. unfold min_overlap in *.
  destruct (Z.lt_ge_cases (overlap (len x) (len y) offset) 20) as [L|L].
  - split; split; intros H; try lia; try (apply Lo; exact L).
    destruct H as [c H]. rewrite (Lo L) in H. discriminate.
  - destruct (Hi L) as [c E]. split; split; intros H; try lia.
    + rewrite E in H. discriminate.
    + exists c. exact E.
Qed.

Lemma slice_from_0 {A} (l : list A) : slice_from l 0 = l.
Proof. reflexivity. Qed.

Lemma cross_correlation_shifted (x y : list Z) (offset : Z) :
  (0 <= offset ->
   cross_correlation x y offset = cross_correlation (slice_from x offset) y 0)
  /\ (offset <= 0 ->
      cross_correlation x y offset = cross_correlation x (slice_from y (- offset)) 0).
Proof.
  split; intros H.
  - destruct (Z.eq_dec offset 0) as [->|N]; [reflexivity|].
    rewrite cross_correlation_pos by lia. rewrite cross_correlation_zero. reflexivity.
  - destruct (Z.eq_dec offset 0) as [->|N]; [reflexivity|].
    rewrite cross_correlation_neg by lia. rewrite cross_correlation_zero. reflexivity.
Qed.

(** Shifting by a non-negative offset is comparing, unshifted, [listx]
    without its first [offset] frames with [listy]; shifting by a negative
    offset is comparing [listx] with [listy] without its first [-offset]
    frames. *)
Theorem cross_correlation_is_shift (x y : list Z) (offset : Z) :
  (0 <= offset ->
   cross_correlation x y offset = cross_correlation (slice_from x offset) y 0)
  /\ (offset <= 0 ->
      cross_correlation x y offset = cross_correlation x (slice_from y (- offset)) 0).
Proof. apply cross_correlation_shifted. Qed.

Lemma cross_correlation_is_shift_witness :
  cross_correlation (ramp 40) (ramp 45) 7 = cross_correlation (slice_from (ramp 40) 7) (ramp 45) 0
  /\ cross_correlation (ramp 40) (ramp 45) (-7)
     = cross_correlation (ramp 40) (slice_from (ramp 45) (- -7)) 0.
Proof.
  split.
  - apply (proj1 (cross_correlation_is_shift (ramp 40) (ramp 45) 7)). lia.
  - apply (proj2 (cross_correlation_is_shift (ramp 40) (ramp 45) (-7))). lia.
Defined.

Lemma cross_correlation_zero_comm (x y : list Z) :
  cross_correlation x y 0 = cross_correlation y x 0.
Proof.
  rewrite !cross_correlation_zero. rewrite (Z.min_comm (len y)), (correlation_comm y).
  reflexivity.
Qed.

(** Exchanging the two fingerprints negates the offset. *)
Theorem cross_correlation_swap (x y : list Z) (offset : Z) :
  cross_correlation x y offset = cross_correlation y x (- offset).
Proof.
  destruct (Z.le_ge_cases 0 offset) as [H|H].
  - rewrite (proj1 (cross_correlation_shifted x y offset) H).
    rewrite (proj2 (cross_correlation_shifted y x (- offset)) ltac:(lia)).
    rewrite Z.opp_involutive. apply cross_correlation_zero_comm.
  - rewrite (proj2 (cross_correlation_shifted x y offset) H).
    rewrite (proj1 (cross_correlation_shifted y x (- offset)) ltac:(lia)).
    apply cross_correlation_zero_comm.
Qed.

(* ================================================================= *)
(** * Further properties of [max_index] *)

Lemma max_index_loop_absent (rest : list (option Q)) (i : nat)
    (max_value : option Q) (max_idx : nat) :
  In None rest -> max_index_loop rest i max_value max_idx = inl TypeError.
Proof.
  revert i max_value max_idx; induction rest as [|v rest IH]; intros i mv mi H.
  - destruct H.
  - cbn [max_index_loop]. destruct v as [v|]; [|reflexivity].
    destruct mv as [mv|]; [|reflexivity].
    destruct H as [H|H]; [discriminate|].
    cbn [gt bind]. destruct (negb (Qle_bool v mv)); apply IH; exact H.
Qed.

(** [max_index] raises [IndexError] on the empty list and [TypeError] on a
    list that holds an absent score; on any other list it returns the index
    of the first maximum. *)
Theorem max_index_cases (listx : list (option Q)) :
  (listx = [] -> max_index listx = inl IndexError)
  /\ (In None listx -> max_index listx = inl TypeError)
  /\ (forall scores, scores <> [] -> listx = map Some scores ->
      exists i, max_index listx = inr i /\ first_max scores i).
Proof.
  split; [intros ->; reflexivity|]. split.
  - intros H. destruct listx as [|v rest]; [destruct H|].
    unfold max_index, index. cbn [nth_error bind].
    apply max_index_loop_absent. exact H.
  - intros scores N ->. apply max_index_first_max. exact N.
Qed.

Lemma max_index_cases_witness :
  max_index [] = inl IndexError
  /\ max_index [Some (1 # 2); None; Some 1%Q] = inl TypeError
  /\ exists i, max_index (map Some [1 # 2; 3 # 4; 1 # 4; 3 # 4]) = inr i
               /\ first_max [1 # 2; 3 # 4; 1 # 4; 3 # 4] i /\ i = 1%nat.
Proof.
  split; [apply (proj1 (max_index_cases [])); reflexivity|]. split.
  - apply (proj1 (proj2 (max_index_cases [Some (1 # 2); None; Some 1%Q]))).
    right; left; reflexivity.
  - destruct (proj2 (proj2 (max_index_cases (map Some [1 # 2; 3 # 4; 1 # 4; 3 # 4])))
                [1 # 2; 3 # 4; 1 # 4; 3 # 4] ltac:(discriminate) eq_refl) as [i [E F]].
    exists i. split; [exact E|]. split; [exact F|].
    vm_compute in E. congruence.
Defined.

(* ================================================================= *)
(** * Further properties of [is_match] *)

Lemma is_match_true_iff (pairs : list (Q * Z)) (threshold : Q) (m d : Z) :
  is_match (present pairs) threshold m d = inr true
  <-> Spec.some_cluster (sorted_high_offsets pairs threshold) m d.
Proof.
  rewrite is_match_present.
  assert (L : List.length (sorted_high_offsets pairs threshold)
              = List.length (Spec.high pairs threshold)).
  { rewrite (Permutation_length (sorted_high_offsets_perm pairs threshold)).
    apply length_map. }
  destruct (Z.ltb_spec (len (Spec.high pairs threshold)) m) as [F|F].
  - split; [discriminate|]. intros [i [_ Hc]]. exfalso.
    pose proof (cluster_at_length (sorted_high_offsets pairs threshold) d i).
    unfold len in *. lia.
  - rewrite <- existsb_some_cluster. split; congruence.
Qed.

Lemma is_match_bool (pairs : list (Q * Z)) (threshold : Q) (m d : Z) :
  exists b, is_match (present pairs) threshold m d = inr b.
Proof. rewrite is_match_present. eexists. reflexivity. Qed.

Lemma cluster_at_0 (o : Z) (offsets : list Z) (d : Z) :
  (1 <= List.length (Spec.cluster_at (o :: offsets) d 0))%nat.
Proof. unfold Spec.cluster_at. simpl. lia. Qed.

(** With at most one required member, as in [correlate], the clustering
    plays no part: [is_match] answers whether some score reaches the
    threshold, whatever [max_offset_deviation] is. *)
Theorem is_match_one_member (pairs : list (Q * Z)) (threshold : Q)
    (min_consistent_offsets max_offset_deviation : Z) :
  min_consistent_offsets <= 1 ->
  is_match (present pairs) threshold min_consistent_offsets max_offset_deviation
  = inr (existsb (fun p => Qle_bool threshold (fst p)) pairs).
Proof.
  intros Hm.
  assert (E : existsb (fun p => Qle_bool threshold (fst p)) pairs
              = negb (Nat.eqb (List.length (Spec.high pairs threshold)) 0)).
  { unfold Spec.high. induction pairs as [|p pairs IH]; [reflexivity|].
    simpl. destruct (Qle_bool threshold (fst p)); [reflexivity | exact IH]. }
  rewrite E.
  destruct (is_match_bool pairs threshold min_consistent_offsets max_offset_deviation)
    as [b Hb].
  rewrite Hb. f_equal.
  pose proof (is_match_true_iff pairs threshold min_consistent_offsets max_offset_deviation)
    as T.
  rewrite Hb in T.
  pose proof (sorted_high_offsets_perm pairs threshold) as P.
  apply Permutation_length in P. rewrite length_map in P.
  destruct (Spec.high pairs threshold) as [|h hs] eqn:H.
  - simpl. destruct b; [|reflexivity].
    destruct (proj1 T eq_refl) as [i [Hi _]]. simpl in P. lia.
  - simpl. destruct b; [reflexivity|].
    assert (C : Spec.some_cluster (sorted_high_offsets pairs threshold)
                  min_consistent_offsets max_offset_deviation).
    { destruct (sorted_high_offsets pairs threshold) as [|o os]; [simpl in P; lia|].
      exists 0%nat. split; [simpl; lia|].
      pose proof (cluster_at_0 o os max_offset_deviation). unfold len. lia. }
    apply T in C. discriminate.
Qed.

Lemma is_match_one_member_witness :
  is_match (present [(1 # 2, -30); (7 # 10, 40)]) (60 # 100) 1 5
  = inr (existsb (fun p => Qle_bool (60 # 100) (fst p)) [(1 # 2, -30); (7 # 10, 40)]).
Proof. apply (is_match_one_member [(1 # 2, -30); (7 # 10, 40)] (60 # 100) 1 5). lia. Defined.

Lemma filter_perm {A} (f : A -> bool) (l l' : list A) :
  Permutation l l' -> Permutation (filter f l) (filter f l').
Proof.
  induction 1 as [|x l l' _ IH|x y l|l l' l'' _ IH1 _ IH2]; simpl.
  - constructor.
  - destruct (f x); [constructor|]; exact IH.
  - destruct (f x), (f y); try reflexivity. apply perm_swap.
  - eapply perm_trans; eassumption.
Qed.

Lemma sorted_high_offsets_sorted (pairs : list (Q * Z)) (threshold : Q) :
  StronglySorted Z.le (sorted_high_offsets pairs threshold).
Proof. unfold sorted_high_offsets. apply (sort_sorted snd). Qed.

(** The verdict does not depend on the order of the pairs. *)
Theorem is_match_order_independent (pairs pairs' : list (Q * Z)) (threshold : Q)
    (min_consistent_offsets max_offset_deviation : Z) :
  Permutation pairs pairs' ->
  is_match (present pairs) threshold min_consistent_offsets max_offset_deviation
  = is_match (present pairs') threshold min_consistent_offsets max_offset_deviation.
Proof.
  intros P. rewrite !is_match_present.
  assert (H : Permutation (Spec.high pairs threshold) (Spec.high pairs' threshold))
    by (apply filter_perm; exact P).
  assert (O : sorted_high_offsets pairs threshold = sorted_high_offsets pairs' threshold).
  { apply sorted_perm_eq; try apply sorted_high_offsets_sorted.
    rewrite !sorted_high_offsets_perm. apply Permutation_map. exact H. }
  rewrite O. unfold len. rewrite (Permutation_length H). reflexivity.
Qed.

Lemma is_match_order_independent_witness :
  is_match (present [(9 # 10, 9); (8 # 10, 0); (1%Q, 4)]) (3 # 4) 2 5
  = is_match (present [(8 # 10, 0); (9 # 10, 9); (1%Q, 4)]) (3 # 4) 2 5.
Proof.
  apply (is_match_order_independent [(9 # 10, 9); (8 # 10, 0); (1%Q, 4)]
           [(8 # 10, 0); (9 # 10, 9); (1%Q, 4)] (3 # 4) 2 5).
  apply perm_swap.
Defined.

Lemma take_while_sorted (a d : Z) (l : list Z) :
  StronglySorted Z.le l ->
  Spec.take_while (fun o => o - a <=? d) l = filter (fun o => o - a <=? d) l.
Proof.
  induction 1 as [|x l _ IH F]; simpl; [reflexivity|].
  destruct (Z.leb_spec (x - a) d) as [L|L]; [rewrite IH; reflexivity|].
  symmetry. clear IH.
  induction F as [|y l Hy _ IHl]; [reflexivity|]. simpl.
  destruct (Z.leb_spec (y - a) d); [lia | exact IHl].
Qed.

Lemma cluster_at_head_window (x d : Z) (l : list Z) :
  0 <= d -> StronglySorted Z.le (x :: l) ->
  len (Spec.cluster_at (x :: l) d 0) = in_window x d (x :: l).
Proof.
  intros Hd S. inversion S as [|? ? S' F]; subst.
  unfold Spec.cluster_at, in_window, len. cbn [skipn filter].
  rewrite take_while_sorted by exact S'.
  replace ((x <=? x) && (x <=? x + d)) with true
    by (symmetry; apply andb_true_intro; split; apply Z.leb_le; lia).
  cbn [List.length].
  assert (E : filter (fun o => o - x <=? d) l
              = filter (fun o => (x <=? o) && (o <=? x + d)) l).
  { apply filter_ext_in. intros o Ho. rewrite Forall_forall in F. apply F in Ho.
    destruct (Z.leb_spec x o); [|lia]. cbn [andb].
    destruct (Z.leb_spec (o - x) d), (Z.leb_spec o (x + d)); try reflexivity; lia. }
  rewrite E. reflexivity.
Qed.

Lemma some_cluster_cons (x : Z) (l : list Z) (m d : Z) :
  Spec.some_cluster (x :: l) m d
  <-> m <= len (Spec.cluster_at (x :: l) d 0) \/ Spec.some_cluster l m d.
Proof.
  unfold Spec.some_cluster. split.
  - intros [[|i] [Hi Hc]]; [left; exact Hc|].
    right. exists i. split; [simpl in Hi; lia | exact Hc].
  - intros [Hc | [i [Hi Hc]]].
    + exists 0%nat. split; [simpl; lia | exact Hc].
    + exists (S i). split; [simpl; lia | exact Hc].
Qed.

Lemma in_window_cons (a d x : Z) (l : list Z) :
  in_window a d l <= in_window a d (x :: l)
  /\ (x < a -> in_window a d (x :: l) = in_window a d l).
Proof.
  unfold in_window, len. cbn [filter]. split.
  - destruct ((a <=? x) && (x <=? a + d)); cbn [List.length]; lia.
  - intros H. destruct (Z.leb_spec a x); [lia | reflexivity].
Qed.

(** On ascending offsets and for a non-negative deviation, a large enough
    cluster exists exactly when some offset [a] has enough offsets in
    [[a, a + d]]. *)
Lemma some_cluster_window (offsets : list Z) (m d : Z) :
  0 <= d -> StronglySorted Z.le offsets ->
  (Spec.some_cluster offsets m d
   <-> exists a, In a offsets /\ m <= in_window a d offsets).
Proof.
  intros Hd S. induction S as [|x l S' IH F].
  - split; [intros [i [Hi _]]; simpl in Hi; lia | intros [a [[] _]]].
  - rewrite some_cluster_cons.
    rewrite (cluster_at_head_window x d l Hd) by (constructor; assumption).
    split.
    + intros [H | H].
      * exists x. split; [left; reflexivity | exact H].
      * apply IH in H. destruct H as [a [Ia Ha]].
        exists a. split; [right; exact Ia|].
        pose proof (proj1 (in_window_cons a d x l)). lia.
    + intros [a [Ia Ha]]. destruct (Z.eq_dec a x) as [->|N]; [left; exact Ha|].
      right. apply IH. destruct Ia as [E|Ia]; [congruence|].
      exists a. split; [exact Ia|].
      rewrite Forall_forall in F. pose proof (F a Ia).
      rewrite (proj2 (in_window_cons a d x l)) in Ha by lia. exact Ha.
Qed.

Lemma in_window_perm (a d : Z) (l l' : list Z) :
  Permutation l l' -> in_window a d l = in_window a d l'.
Proof.
  intros P. unfold in_window, len. f_equal.
  apply Permutation_length, filter_perm. exact P.
Qed.

(** For a non-negative deviation the anchored clustering has an order-free
    reading: [is_match] is true exactly when, for some high-scoring offset
    [a], at least [min_consistent_offsets] of the high-scoring offsets lie in
    [[a, a + max_offset_deviation]]. *)
Theorem is_match_window (pairs : list (Q * Z)) (threshold : Q)
    (min_consistent_offsets max_offset_deviation : Z) :
  0 <= max_offset_deviation ->
  (is_match (present pairs) threshold min_consistent_offsets max_offset_deviation
   = inr true
   <-> exists a,
         In a (map snd (Spec.high pairs threshold))
         /\ min_consistent_offsets
            <= in_window a max_offset_deviation (map snd (Spec.high pairs threshold))).
Proof.
  intros Hd. rewrite is_match_true_iff.
  rewrite (some_cluster_window _ _ _ Hd (sorted_high_offsets_sorted pairs threshold)).
  pose proof (sorted_high_offsets_perm pairs threshold) as P.
  split; intros [a [Ia Ha]]; exists a.
  - split; [eapply Permutation_in; eassumption|].
    rewrite <- (in_window_perm _ _ _ _ P). exact Ha.
  - split; [eapply Permutation_in; [apply Permutation_sym|]; eassumption|].
    rewrite (in_window_perm _ _ _ _ P). exact Ha.
Qed.

Lemma is_match_window_witness :
  is_match (present [(9 # 10, 9); (1 # 10, 3); (8 # 10, 0); (1%Q, 4); (1%Q, 5)])
    (3 # 4) 3 5 = inr true.
Proof.
  apply (is_match_window [(9 # 10, 9); (1 # 10, 3); (8 # 10, 0); (1%Q, 4); (1%Q, 5)]
           (3 # 4) 3 5); [lia|].
  exists 4. split; [vm_compute; auto | vm_compute; discriminate].
Defined.

Lemma take_while_weaker {A} (f g : A -> bool) (l : list A) :
  (forall a, f a = true -> g a = true) ->
  (List.length (Spec.take_while f l) <= List.length (Spec.take_while g l))%nat.
Proof.
  intros H. induction l as [|a l IH]; simpl; [lia|].
  destruct (f a) eqn:Fa; [rewrite (H a Fa); simpl; lia | simpl; lia].
Qed.

Lemma cluster_at_wider (offsets : list Z) (d d' : Z) (i : nat) :
  d' <= d ->
  (List.length (Spec.cluster_at offsets d' i)
   <= List.length (Spec.cluster_at offsets d i))%nat.
Proof.
  intros H. unfold Spec.cluster_at. destruct (skipn i offsets) as [|a rest]; simpl; [lia|].
  apply le_n_S. apply take_while_weaker. intros o Ho.
  apply Z.leb_le in Ho. apply Z.leb_le. lia.
Qed.

(** Asking for fewer members or allowing a larger deviation never turns a
    match into a non-match. *)
Theorem is_match_monotone (pairs : list (Q * Z)) (threshold : Q) (m m' d d' : Z) :
  m <= m' -> d' <= d ->
  is_match (present pairs) threshold m' d' = inr true ->
  is_match (present pairs) threshold m d = inr true.
Proof.
  intros Hm Hd. rewrite !is_match_true_iff.
  intros [i [Hi Hc]]. exists i. split; [exact Hi|].
  pose proof (cluster_at_wider (sorted_high_offsets pairs threshold) d d' i Hd).
  unfold len in *. lia.
Qed.

Lemma is_match_monotone_witness :
  is_match (present [(9 # 10, 2); (8 # 10, 0); (1%Q, 4)]) (3 # 4) 2 5 = inr true.
Proof.
  apply (is_match_monotone [(9 # 10, 2); (8 # 10, 0); (1%Q, 4)] (3 # 4) 2 3 5 4);
    [lia | lia | vm_compute; reflexivity].
Defined.

(* ================================================================= *)
(** * Further properties of [correlate] *)

Lemma Forall2_In_l {A B} (R : A -> B -> Prop) (l : list A) (l' : list B) (a : A) :
  Forall2 R l l' -> In a l -> exists b, In b l' /\ R a b.
Proof.
  induction 1 as [|x y l l' Hxy _ IH]; intros I; [destruct I|].
  destruct I as [->|I].
  - exists y. split; [left; reflexivity | exact Hxy].
  - destruct (IH I) as [b [Ib Rb]]. exists b. split; [right; exact Ib | exact Rb].
Qed.

Lemma Forall2_In_r {A B} (R : A -> B -> Prop) (l : list A) (l' : list B) (b : B) :
  Forall2 R l l' -> In b l' -> exists a, In a l /\ R a b.
Proof.
  induction 1 as [|x y l l' Hxy _ IH]; intros I; [destruct I|].
  destruct I as [->|I].
  - exists x. split; [left; reflexivity | exact Hxy].
  - destruct (IH I) as [a [Ia Ra]]. exists a. split; [right; exact Ia | exact Ra].
Qed.

Lemma all_present (corr : list (option Q)) :
  ~ In None corr -> exists scores, corr = map Some scores.
Proof.
  induction corr as [|c corr IH]; intros H.
  - exists []. reflexivity.
  - destruct IH as [scores ->]; [intros I; apply H; right; exact I|].
    destruct c as [c|]; [|exfalso; apply H; left; reflexivity].
    exists (c :: scores). reflexivity.
Qed.

Lemma combine_map_Some (scores : list Q) (offsets : list Z) :
  combine (map Some scores) offsets = present (combine scores offsets).
Proof.
  revert offsets; induction scores as [|q scores IH]; intros [|o offsets];
    simpl; try reflexivity.
  rewrite IH. reflexivity.
Qed.

(** On a profile without absent scores the verdict raises nothing. *)
Lemma match_verdict_present (dir : string) (offset : Z) (path : string)
    (scores : list Q) (offsets : list Z) :
  List.length scores = List.length offsets ->
  exists o, match_verdict dir offset path (map Some scores) offsets = inr o
            /\ o <> Skipped.
Proof.
  intros L.
  destruct (match_verdict_cases dir offset path (map Some scores) offsets)
    as [T | [T | [scores' [i [_ [_ [_ T]]]]]]].
  - rewrite length_map. exact L.
  - exfalso. unfold match_verdict in T. cbv zeta in T.
    rewrite combine_map_Some in T.
    destruct (is_match_bool (combine scores offsets) (60 # 100) 1 5) as [b Hb].
    rewrite Hb in T. cbn [bind] in T. destruct b; [|discriminate].
    apply is_match_one_high in Hb. destruct Hb as [p [Ip _]].
    assert (N : scores <> []) by (intros ->; destruct Ip).
    destruct (get_max_corr_first_max scores N) as [j [G [Fj _]]].
    rewrite G in T. cbn [bind] in T. unfold index in T.
    rewrite (nth_error_map Some j scores), (nth_error_nth' scores 0%Q Fj) in T.
    discriminate.
  - eexists. split; [exact T | discriminate].
  - eexists. split; [exact T | discriminate].
Qed.

Lemma range_In (start stop st o : Z) :
  0 < st ->
  In o (range start stop st) <-> exists k, 0 <= k /\ o = start + k * st /\ o < stop.
Proof.
  intros Hs. unfold range, range_len. rewrite progression_In.
  pose proof (Z.div_mod (start - stop) st ltac:(lia)) as E.
  pose proof (Z.mod_pos_bound (start - stop) st Hs) as B.
  split; intros [k H]; exists k.
  - destruct H as [Hk ->]. repeat split; try lia. nia.
  - destruct H as [Hk [-> Ho]]. split; [|reflexivity]. nia.
Qed.

Lemma sorted_app (l1 l2 : list Z) :
  StronglySorted Z.le l1 -> StronglySorted Z.le l2 ->
  (forall a b, In a l1 -> In b l2 -> a <= b) ->
  StronglySorted Z.le (l1 ++ l2).
Proof.
  induction 1 as [|x l1 S1 IH F]; intros S2 H; simpl; [exact S2|].
  constructor.
  - apply IH; [exact S2|]. intros a b Ia Ib. apply H; [right; exact Ia | exact Ib].
  - apply Forall_app. split; [exact F|].
    apply Forall_forall. intros b Ib. apply H; [left; reflexivity | exact Ib].
Qed.

Lemma sorted_constant (w : Z) (l : list Z) :
  Forall (fun a => a = w) l -> StronglySorted Z.le l.
Proof.
  induction 1 as [|a l Ha F IH]; constructor; [exact IH|].
  eapply Forall_impl; [|exact F]. cbv beta. intros; lia.
Qed.

Section CorrelateFurther.

Variable calculate_fingerprint : string -> Z -> Z -> result (list Z).
Variable get_fingerprint : string -> result (list Z).
Variable get_fingerprints : string -> list string.
Variable get_audio_duration : string -> result Z.

Local Abbreviation pair := (correlate_pair get_fingerprint).
Local Abbreviation references := (references_loop get_fingerprint).
Local Abbreviation windows := (windows_loop calculate_fingerprint get_fingerprint).
Local Abbreviation scan :=
  (correlate calculate_fingerprint get_fingerprint get_fingerprints get_audio_duration).
Local Abbreviation window_offsets duration :=
  (range 0 (duration - sample_time + 1) 10).

(** A sweep of the scan meets an offset with too small an overlap as soon
    as one of the fingerprints has fewer than 170 frames. *)
Lemma short_fingerprint_absent (src short : list Z) :
  20 < Z.min (len src) (len short) < 170 ->
  exists o,
    In o (progression (- span_to_use src short) 10
            (range_len (- span_to_use src short) (span_to_use src short + 1) 10))
    /\ overlap (len src) (len short) o < min_overlap.
Proof.
  intros H. unfold span_to_use, span, min_overlap.
  set (s := Z.min 150 (Z.min (len src) (len short) - 1)).
  assert (Hs : 20 <= s <= 150) by (subst s; lia).
  pose proof (Z.div_mod (2 * s) 10 ltac:(lia)) as E.
  pose proof (Z.mod_pos_bound (2 * s) 10 ltac:(lia)) as B.
  destruct (Z.le_gt_cases (len short) (len src)) as [C|C].
  - exists (- s). split.
    + apply sweep_offsets_In; [lia|]. exists 0. lia.
    + unfold overlap. destruct (Z.gtb_spec (- s) 0); [lia|].
      destruct (Z.ltb_spec (- s) 0); [|lia]. subst s. lia.
  - exists (- s + (2 * s / 10) * 10). split.
    + apply sweep_offsets_In; [lia|]. exists (2 * s / 10).
      split; [apply Z.div_pos; lia|]. split; [reflexivity | lia].
    + unfold overlap. destruct (Z.gtb_spec (- s + 2 * s / 10 * 10) 0); [|lia].
      subst s. lia.
Qed.

Lemma long_fingerprint_present (src short : list Z) (o : Z) :
  170 <= Z.min (len src) (len short) ->
  In o (progression (- span_to_use src short) 10
          (range_len (- span_to_use src short) (span_to_use src short + 1) 10)) ->
  min_overlap <= overlap (len src) (len short) o.
Proof.
  intros H I. apply sweep_offsets_In in I; [|lia].
  destruct I as [k [Hk [E Ho]]]. unfold span_to_use, span in *.
  unfold overlap, min_overlap.
  destruct (Z.gtb_spec o 0); [lia|]. destruct (Z.ltb_spec o 0); lia.
Qed.

(** What the loop body of [correlate] does with a reference that was read
    depends on the shorter of the two fingerprints: up to 20 frames the pair
    is skipped; from 21 to 169 frames the sweep meets an offset with fewer
    than 20 overlapping frames and the body raises a [TypeError]; from 170
    frames on it raises nothing and reports a match or none. *)
Theorem correlate_pair_by_length (dir : string) (offset : Z) (src : list Z)
    (path : string) (short : list Z) :
  get_fingerprint path = inr short ->
  (Z.min (len src) (len short) <= 20 -> pair dir 10 offset src path = inr Skipped)
  /\ (20 < Z.min (len src) (len short) < 170 ->
      pair dir 10 offset src path = inl TypeError)
  /\ (170 <= Z.min (len src) (len short) ->
      exists o, pair dir 10 offset src path = inr o /\ o <> Skipped).
Proof.
  intros G.
  assert (Hx : src = [] -> len src = 0) by (intros ->; reflexivity).
  assert (Hy : short = [] -> len short = 0) by (intros ->; reflexivity).
  destruct (correlate_pair_cases get_fingerprint dir 10 offset src path short
              ltac:(lia) G)
    as [[S P] | [Ns [Nx [M [B [corr [offsets [C [A [L V]]]]]]]]]].
  - assert (Z.min (len src) (len short) <= 20).
    { destruct S as [S | [S | S]];
        [rewrite (Hy S) | rewrite (Hx S) | unfold span_to_use, span, min_overlap in S];
        lia. }
    split; [intros _; exact P|]. split; [lia | lia].
  - assert (20 < Z.min (len src) (len short))
      by (unfold span_to_use, span, min_overlap in M; lia).
    split; [lia|].
    destruct (compare_sweep src short (span_to_use src short) 10 ltac:(lia) ltac:(lia))
      as [corr' [C' F]].
    assert (corr' = corr) by congruence. subst corr'.
    split.
    + intros R. rewrite V. apply match_verdict_absent; [exact L|].
      destruct (short_fingerprint_absent src short R) as [o [Io Ho]].
      destruct (Forall2_In_l _ _ _ o F Io) as [c [Ic Sc]].
      unfold scored_at in Sc.
      rewrite (proj1 (cross_correlation_guard src short o) Ho) in Sc.
      inversion Sc; subst. exact Ic.
    + intros R. rewrite V.
      destruct (all_present corr) as [scores ->].
      { intros I. destruct (Forall2_In_r _ _ _ None F I) as [o [Io Sc]].
        destruct (proj2 (cross_correlation_guard src short o)
                    (long_fingerprint_present src short o R Io)) as [c Ec].
        unfold scored_at in Sc. congruence. }
      apply match_verdict_present. rewrite length_map in L. exact L.
Qed.

(** For the scan as a whole, once [get_audio_duration] has returned the
    duration: if the fingerprint computed for every window the scan visits
    and every reference fingerprint has at least 170 frames (and every
    reference can be read), [correlate] returns; and one visited window that
    was fingerprinted, paired with a reference such that the shorter of the
    two has 21 to 169 frames, ends it with an exception. *)
Theorem scan_by_length (source dir : string) (duration : Z) :
  get_audio_duration source = inr duration ->
  ((forall offset src,
      In offset (window_offsets duration) ->
      calculate_fingerprint source offset sample_time = inr src -> 170 <= len src) ->
   (forall path, In path (get_fingerprints dir) ->
                 exists short, get_fingerprint path = inr short /\ 170 <= len short) ->
   exists songs, scan source dir = inr songs)
  /\ (forall offset src path short,
        In offset (window_offsets duration) ->
        calculate_fingerprint source offset sample_time = inr src ->
        In path (get_fingerprints dir) ->
        get_fingerprint path = inr short ->
        20 < Z.min (len src) (len short) < 170 ->
        exists e, scan source dir = inl e).
Proof.
  intros D.
  rewrite (correlate_duration calculate_fingerprint get_fingerprint get_fingerprints
             get_audio_duration source dir duration D).
  split.
  - intros Hw Hr.
    destruct (windows source dir sample_time 10 (get_fingerprints dir)
                (window_offsets duration) []) as [e|songs] eqn:E;
      [|eexists; reflexivity].
    exfalso. apply windows_loop_error in E.
    destruct E as [w [src [path [Iw [C [Ip P]]]]]].
    destruct (Hr path Ip) as [short [G Ls]]. pose proof (Hw w src Iw C) as Lw.
    destruct (proj2 (proj2 (correlate_pair_by_length dir w src path short G)) ltac:(lia))
      as [o [P' _]].
    congruence.
  - intros offset src path short Iw C Ip G R.
    eapply windows_loop_aborts; try eassumption.
    apply (proj1 (proj2 (correlate_pair_by_length dir offset src path short G)) R).
Qed.

(** A recording whose duration is below the 500-second window has no
    window: the scan returns the empty list without fingerprinting anything,
    whatever the other collaborators do. *)
Theorem short_recording_empty (source dir : string) (duration : Z) :
  get_audio_duration source = inr duration ->
  duration < sample_time -> scan source dir = inr [].
Proof.
  intros D H.
  rewrite (correlate_duration calculate_fingerprint get_fingerprint get_fingerprints
             get_audio_duration source dir duration D).
  assert (E : window_offsets duration = []).
  { destruct (window_offsets duration) as [|w ws] eqn:R; [reflexivity|].
    assert (I : In w (window_offsets duration)) by (rewrite R; left; reflexivity).
    apply range_In in I; [|lia]. destruct I as [k I]. lia. }
  rewrite E. reflexivity.
Qed.

Lemma references_loop_timestamps (dir : string) (st offset : Z) (src : list Z)
    (fingerprints : list string) (found_songs found_songs' : list found_song) :
  st <> 0 ->
  references dir st offset src fingerprints found_songs = inr found_songs' ->
  exists new, found_songs' = found_songs ++ new
              /\ Forall (fun t => t = offset) (map timestamp new).
Proof.
  intros Hst E. apply references_loop_appends in E. destruct E as [new [-> F]].
  exists new. split; [reflexivity|].
  apply Forall_forall. intros t It. apply in_map_iff in It.
  destruct It as [found [<- If]]. rewrite Forall_forall in F.
  destruct (F found If) as [path [mo [_ P]]].
  apply correlate_pair_matched in P; [|exact Hst].
  destruct P as [short [corr [scores [i [_ [_ [_ [_ [_ ->]]]]]]]]]. reflexivity.
Qed.

Lemma windows_loop_sorted (source dir : string) (window st : Z)
    (fingerprints : list string) (offsets : list Z)
    (found_songs found_songs' : list found_song) :
  st <> 0 -> StronglySorted Z.lt offsets ->
  windows source dir window st fingerprints offsets found_songs = inr found_songs' ->
  exists new,
    found_songs' = found_songs ++ new
    /\ StronglySorted Z.le (map timestamp new)
    /\ Forall (fun t => In t offsets) (map timestamp new).
Proof.
  intros Hst S. revert found_songs.
  induction S as [|w ws S' IH F]; intros acc; simpl.
  - intros E. inversion E. exists []. rewrite app_nil_r.
    split; [reflexivity|]. split; constructor.
  - assert (W : forall new, Forall (fun t => In t ws) (map timestamp new) ->
                            Forall (fun t => w = t \/ In t ws) (map timestamp new)).
    { intros new H. eapply Forall_impl; [|exact H]. cbv beta. intros; right; assumption. }
    destruct (calculate_fingerprint source w window) as [e|src].
    + intros E. apply IH in E. destruct E as [new [-> [So In']]].
      exists new. split; [reflexivity|]. split; [exact So | apply W; exact In'].
    + destruct (references dir st w src fingerprints acc) as [e|acc1] eqn:R;
        cbn [bind]; [discriminate|].
      intros E. apply IH in E. destruct E as [new2 [-> [S2 I2]]].
      apply references_loop_timestamps in R; [|exact Hst].
      destruct R as [new1 [-> T1]].
      exists (new1 ++ new2). rewrite app_assoc. split; [reflexivity|].
      rewrite map_app. split.
      * apply sorted_app; [eapply sorted_constant; exact T1 | exact S2 |].
        intros a b Ia Ib. rewrite Forall_forall in T1, I2, F.
        rewrite (T1 a Ia). pose proof (F b (I2 b Ib)). lia.
      * apply Forall_app. split; [|apply W; exact I2].
        eapply Forall_impl; [|exact T1]. cbv beta. intros t ->. left; reflexivity.
Qed.

(** The songs come out in the order of the scan: their timestamps never
    decrease, and each is a multiple of 10 seconds at which a whole window
    still fits into the recording. *)
Theorem scan_timestamps_ordered (source dir : string) (songs : list found_song) :
  scan source dir = inr songs ->
  exists duration,
    get_audio_duration source = inr duration
    /\ StronglySorted Z.le (map timestamp songs)
    /\ Forall (fun t => 0 <= t <= duration - sample_time /\ (10 | t))
         (map timestamp songs).
Proof.
  intros E.
  apply (correlate_returned calculate_fingerprint get_fingerprint get_fingerprints
           get_audio_duration) in E.
  destruct E as [duration [D E]]. exists duration. split; [exact D|].
  apply windows_loop_sorted in E; [|lia | apply progression_increasing; lia].
  destruct E as [new [-> [S I]]]. simpl. split; [exact S|].
  eapply Forall_impl; [|exact I]. cbv beta. intros t It.
  apply range_In in It; [|lia]. destruct It as [k [Hk [-> Hlt]]].
  split; [lia|]. exists k. lia.
Qed.

End CorrelateFurther.

Lemma correlate_pair_by_length_witness :
  correlate_pair Example.get_fingerprint "short" 10 0 (ramp 19) "short/song.mp3.fpcalc"
  = inr Skipped
  /\ correlate_pair Example.get_fingerprint "short" 10 0 (ramp 200) "short/song.mp3.fpcalc"
     = inl TypeError
  /\ exists o,
       correlate_pair Example.get_fingerprint "fingerprints" 10 0 (ramp 200)
         "fingerprints/song.mp3.fpcalc" = inr o /\ o <> Skipped.
Proof.
  split; [|split].
  - apply (proj1 (correlate_pair_by_length Example.get_fingerprint "short"%string 0
                    (ramp 19) "short/song.mp3.fpcalc"%string (ramp 25) eq_refl)).
    vm_compute. discriminate.
  - apply (proj1 (proj2 (correlate_pair_by_length Example.get_fingerprint "short"%string 0
                           (ramp 200) "short/song.mp3.fpcalc"%string (ramp 25) eq_refl))).
    vm_compute. split; reflexivity.
  - apply (proj2 (proj2 (correlate_pair_by_length Example.get_fingerprint
                           "fingerprints"%string 0 (ramp 200)
                           "fingerprints/song.mp3.fpcalc"%string (ramp 200) eq_refl))).
    vm_compute. discriminate.
Defined.

Lemma scan_by_length_witness :
  (exists songs, Example.scan "input.mp4" "fingerprints" = inr songs)
  /\ (exists e, Example.scan "input.mp4" "short" = inl e).
Proof.
  destruct (scan_by_length Example.calculate_fingerprint Example.get_fingerprint
              Example.get_fingerprints Example.get_audio_duration
              "input.mp4"%string "fingerprints"%string 520 eq_refl) as [Long _].
  destruct (scan_by_length Example.calculate_fingerprint Example.get_fingerprint
              Example.get_fingerprints Example.get_audio_duration
              "input.mp4"%string "short"%string 520 eq_refl) as [_ Short].
  split.
  - apply Long.
    + intros offset src _. unfold Example.calculate_fingerprint.
      destruct (offset =? 10); [discriminate|].
      intros E. inversion E. vm_compute. discriminate.
    + intros path [<- | []]. exists (ramp 200).
      split; [reflexivity | vm_compute; discriminate].
  - apply (Short 0 (ramp 200) "short/song.mp3.fpcalc"%string (ramp 25)).
    + vm_compute. left. reflexivity.
    + reflexivity.
    + left. reflexivity.
    + reflexivity.
    + vm_compute. split; reflexivity.
Defined.

Lemma short_recording_empty_witness :
  correlate Example.calculate_fingerprint Example.get_fingerprint
    Example.get_fingerprints (fun _ => inr 499) "input.mp4" "fingerprints" = inr [].
Proof.
  apply (short_recording_empty Example.calculate_fingerprint Example.get_fingerprint
           Example.get_fingerprints (fun _ => inr 499)
           "input.mp4"%string "fingerprints"%string 499 eq_refl).
  reflexivity.
Defined.

Lemma scan_timestamps_ordered_witness :
  exists songs,
    Example.scan "input.mp4" "fingerprints" = inr songs
    /\ map timestamp songs = [0; 20]
    /\ StronglySorted Z.le (map timestamp songs).
Proof.
  destruct (Example.scan "input.mp4" "fingerprints") as [e|songs] eqn:E;
    [vm_compute in E; discriminate|].
  exists songs. split; [reflexivity|]. split.
  - vm_compute in E. inversion E. reflexivity.
  - destruct (scan_timestamps_ordered Example.calculate_fingerprint
                Example.get_fingerprint Example.get_fingerprints
                Example.get_audio_duration
                "input.mp4"%string "fingerprints"%string songs E) as [duration [_ [S _]]].
    exact S.
Defined.

(* ================================================================= *)
(** * Properties of [main.py] *)

Lemma timedelta_in_range (offset : Z) :
  timedelta_range offset ->
  Main.timedelta_of_seconds offset
  = inr {| Main.days := offset / 86400; Main.seconds := offset mod 86400 |}.
Proof.
  unfold timedelta_range, Main.timedelta_of_seconds. intros H.
  assert (-999999999 <= offset / 86400) by (apply Z.div_le_lower_bound; lia).
  assert (offset / 86400 < 1000000000) by (apply Z.div_lt_upper_bound; lia).
  destruct (Z.ltb_spec (offset / 86400) (-999999999)); [lia|].
  destruct (Z.gtb_spec (offset / 86400) 999999999); [lia|]. reflexivity.
Qed.

Lemma timedelta_out_of_range (offset : Z) :
  ~ timedelta_range offset -> Main.timedelta_of_seconds offset = inl Main.OverflowError.
Proof.
  unfold timedelta_range, Main.timedelta_of_seconds. intros H.
  destruct (Z.ltb_spec (offset / 86400) (-999999999)) as [L|L]; [reflexivity|].
  destruct (Z.gtb_spec (offset / 86400) 999999999) as [G|G]; [reflexivity|].
  exfalso. apply H.
  pose proof (Z.div_mod offset 86400 ltac:(lia)).
  pose proof (Z.mod_pos_bound offset 86400 ltac:(lia)). lia.
Qed.

(** The four fields [make_songlist] computes for a timestamp. *)
Lemma fields_of_sum (d h m s : Z) :
  0 <= h < 24 -> 0 <= m < 60 -> 0 <= s < 60 ->
  let offset := 86400 * d + 3600 * h + 60 * m + s in
  offset / 86400 = d
  /\ offset mod 86400 / 3600 = h
  /\ (offset mod 86400 / 60) mod 60 = m
  /\ offset mod 86400 mod 60 = s.
Proof.
  intros Hh Hm Hs offset.
  assert (D : offset / 86400 = d)
    by (symmetry; apply (Z.div_unique_pos offset 86400 d (3600 * h + 60 * m + s)); lia).
  assert (R : offset mod 86400 = 3600 * h + 60 * m + s)
    by (symmetry; apply (Z.mod_unique_pos offset 86400 d); lia).
  rewrite R. split; [exact D|]. split; [|split].
  - symmetry. apply (Z.div_unique_pos _ 3600 h (60 * m + s)); lia.
  - assert (E : (3600 * h + 60 * m + s) / 60 = 60 * h + m)
      by (symmetry; apply (Z.div_unique_pos _ 60 _ s); lia).
    rewrite E. symmetry. apply (Z.mod_unique_pos _ 60 h); lia.
  - symmetry. apply (Z.mod_unique_pos _ 60 (60 * h + m)); lia.
Qed.

(** [timedelta(seconds=offset)] followed by
    [get_days_hours_minutes_seconds_from_timedelta] splits a timestamp into
    days, hours below 24, minutes below 60 and seconds below 60 that add up
    to it, and gives back the fields of a timestamp built from such fields;
    outside the range of [timedelta] the constructor raises
    [OverflowError]. *)
Theorem timedelta_fields (offset : Z) :
  (timedelta_range offset ->
   exists td d h m s,
     Main.timedelta_of_seconds offset = inr td
     /\ Main.get_days_hours_minutes_seconds_from_timedelta td = (d, h, m, s)
     /\ offset = 86400 * d + 3600 * h + 60 * m + s
     /\ 0 <= h < 24 /\ 0 <= m < 60 /\ 0 <= s < 60
     /\ (forall d' h' m' s',
           0 <= h' < 24 -> 0 <= m' < 60 -> 0 <= s' < 60 ->
           offset = 86400 * d' + 3600 * h' + 60 * m' + s' ->
           (d', h', m', s') = (d, h, m, s)))
  /\ (~ timedelta_range offset ->
      Main.timedelta_of_seconds offset = inl Main.OverflowError).
Proof.
  split; [|apply timedelta_out_of_range].
  intros R. rewrite (timedelta_in_range offset R).
  eexists. do 4 eexists. split; [reflexivity|].
  unfold Main.get_days_hours_minutes_seconds_from_timedelta. cbn [Main.days Main.seconds].
  split; [reflexivity|].
  pose proof (Z.div_mod offset 86400 ltac:(lia)) as E1.
  pose proof (Z.mod_pos_bound offset 86400 ltac:(lia)) as B1.
  set (r := offset mod 86400) in *.
  pose proof (Z.div_mod r 3600 ltac:(lia)) as E2.
  pose proof (Z.mod_pos_bound r 3600 ltac:(lia)) as B2.
  pose proof (Z.div_mod r 60 ltac:(lia)) as E3.
  pose proof (Z.mod_pos_bound r 60 ltac:(lia)) as B3.
  pose proof (Z.div_mod (r / 60) 60 ltac:(lia)) as E4.
  pose proof (Z.mod_pos_bound (r / 60) 60 ltac:(lia)) as B4.
  assert (H3600 : r / 3600 = r / 60 / 60)
    by (rewrite Z.div_div by lia; reflexivity).
  split; [lia|].
  assert (0 <= r / 3600 < 24).
  { split; [apply Z.div_pos; lia | apply Z.div_lt_upper_bound; lia]. }
  split; [assumption|]. split; [assumption|]. split; [assumption|].
  intros d' h' m' s' Hh Hm Hs Eo.
  destruct (fields_of_sum d' h' m' s' Hh Hm Hs) as [F1 [F2 [F3 F4]]].
  rewrite <- Eo in F1, F2, F3, F4. subst r. congruence.
Qed.

Lemma timedelta_fields_witness :
  exists td,
    Main.timedelta_of_seconds 90061 = inr td
    /\ Main.get_days_hours_minutes_seconds_from_timedelta td = (1, 1, 1, 1)
    /\ Main.timedelta_of_seconds (10 ^ 15) = inl Main.OverflowError.
Proof.
  destruct (proj1 (timedelta_fields 90061)) as [td [d [h [m [s [E [F [_ [_ [_ [_ U]]]]]]]]]]].
  { unfold timedelta_range. lia. }
  exists td. split; [exact E|]. split.
  - rewrite F. symmetry. apply U; lia.
  - apply (proj2 (timedelta_fields (10 ^ 15))). unfold timedelta_range. lia.
Defined.

Lemma append_assoc (a b c : string) : ((a ++ b) ++ c = a ++ (b ++ c))%string.
Proof. induction a as [|x a IH]; simpl; [reflexivity | rewrite IH; reflexivity]. Qed.

Lemma append_not_empty (a b : string) : b <> EmptyString -> (a ++ b)%string <> EmptyString.
Proof. destruct a; simpl; [auto | discriminate]. Qed.

Lemma line_not_empty (entry : string * Z) : line entry <> EmptyString.
Proof. unfold line. apply append_not_empty. discriminate. Qed.

Lemma add_line_not_empty (acc l : string) : l <> EmptyString -> add_line acc l <> EmptyString.
Proof.
  intros H. unfold add_line. destruct (String.eqb_spec acc ""); [exact H|].
  destruct acc; [congruence | discriminate].
Qed.

(** Adding lines one by one to a non-empty text is appending them, each
    after a line feed. *)
Lemma add_lines_append (lines : list string) (acc : string) :
  acc <> EmptyString -> Forall (fun l => l <> EmptyString) lines ->
  fold_left add_line lines acc
  = match lines with
    | [] => acc
    | _ => (acc ++ Main.newline ++ join Main.newline lines)%string
    end.
Proof.
  intros Ha F. revert acc Ha. induction F as [|l lines Hl F IH]; intros acc Ha.
  - reflexivity.
  - cbn [fold_left]. rewrite IH by (apply add_line_not_empty; exact Hl).
    unfold add_line. destruct (String.eqb_spec acc ""); [contradiction|].
    destruct lines as [|l' lines]; [reflexivity|].
    cbn [join]. rewrite !append_assoc. reflexivity.
Qed.

Lemma add_lines_join (lines : list string) :
  Forall (fun l => l <> EmptyString) lines ->
  fold_left add_line lines EmptyString = join Main.newline lines.
Proof.
  intros F. destruct F as [|l lines Hl F]; [reflexivity|].
  cbn [fold_left]. change (add_line "" l) with l.
  rewrite add_lines_append by assumption.
  destruct lines; reflexivity.
Qed.

(** The loop of [make_songlist] adds the line of every printed song. *)
Lemma make_songlist_loop_lines (found_songs : list found_song) (songlist : string)
    (last_song : option string) :
  Forall (fun found => timedelta_range (timestamp found)) found_songs ->
  Main.make_songlist_loop found_songs songlist last_song
  = inr (fold_left add_line (map line (printed found_songs last_song)) songlist).
Proof.
  intros F. revert songlist last_song.
  induction F as [|[[name c] offset] rest R _ IH]; intros songlist last_song.
  - reflexivity.
  - cbn [Main.make_songlist_loop printed].
    destruct (Main.same_song last_song (replace name ".mp3" "")); [apply IH|].
    unfold timestamp in R. cbn [snd] in R.
    rewrite (timedelta_in_range offset R).
    unfold Main.get_days_hours_minutes_seconds_from_timedelta.
    cbn [Main.days Main.seconds map fold_left]. rewrite IH. reflexivity.
Qed.

Lemma printed_no_repeat (found_songs : list found_song) (last_song : option string) :
  no_repeat last_song (printed found_songs last_song).
Proof.
  revert last_song; induction found_songs as [|[[name c] offset] rest IH];
    intros last_song; cbn [printed]; [exact I|].
  destruct (Main.same_song last_song (replace name ".mp3" "")) eqn:S.
  - assert (E : last_song = Some (replace name ".mp3" "")).
    { destruct last_song as [l|]; [|discriminate]. simpl in S.
      apply String.eqb_eq in S. congruence. }
    rewrite E at 1. apply IH.
  - cbn [no_repeat]. split; [|apply IH].
    intros E. rewrite E in S. simpl in S. rewrite String.eqb_refl in S. discriminate.
Qed.

(** For timestamps within the range of [timedelta], [make_songlist] returns
    the lines of the printed songs joined by line feeds: one line, with the
    timestamp of its first song, for every run of songs with the same name
    once [.mp3] is removed; no two consecutive lines name the same song. *)
Theorem make_songlist_lines (found_songs : list found_song) :
  Forall (fun found => timedelta_range (timestamp found)) found_songs ->
  Main.make_songlist found_songs
  = inr (join Main.newline (map line (printed found_songs None)))
  /\ no_repeat None (printed found_songs None).
Proof.
  intros F. split; [|apply printed_no_repeat].
  unfold Main.make_songlist. rewrite make_songlist_loop_lines by exact F.
  rewrite add_lines_join; [reflexivity|].
  apply Forall_forall. intros l Hl. apply in_map_iff in Hl.
  destruct Hl as [entry [<- _]]. apply line_not_empty.
Qed.

Lemma make_songlist_lines_witness :
  Main.make_songlist
    [("a.mp3"%string, 1%Q, 0); ("a.mp3"%string, 1%Q, 10);
     ("b.mp3"%string, 1%Q, 70); ("a"%string, 1%Q, 90061)]
  = inr ("00 - a" ++ Main.newline ++ "01:10 - b" ++ Main.newline ++ "01:01:01:01 - a")%string.
Proof.
  rewrite (proj1 (make_songlist_lines
             [("a.mp3"%string, 1%Q, 0); ("a.mp3"%string, 1%Q, 10);
              ("b.mp3"%string, 1%Q, 70); ("a"%string, 1%Q, 90061)]
             ltac:(repeat constructor; unfold timedelta_range, timestamp; simpl; lia))).
  vm_compute. reflexivity.
Defined.

Lemma time_label_hours_seconds (h s : Z) :
  0 < h < 24 -> 0 <= s < 60 ->
  Main.time_label 0 h 0 s = Main.time_label 0 0 h s.
Proof.
  intros Hh Hs. unfold Main.time_label.
  destruct (Z.gtb_spec h 0); [|lia]. reflexivity.
Qed.

(** The time label leaves out a zero minutes field even when hours
    follow: a song found [h] hours and [s] seconds into the recording gets
    the line of a song found [h] minutes and [s] seconds into it. *)
Theorem make_songlist_ambiguous (name : string) (c c' : Q) (h s : Z) :
  0 < h < 24 -> 0 <= s < 60 ->
  Main.make_songlist [(name, c, 3600 * h + s)]
  = Main.make_songlist [(name, c', 60 * h + s)].
Proof.
  intros Hh Hs. unfold Main.make_songlist. cbn [Main.make_songlist_loop Main.same_song].
  rewrite !timedelta_in_range by (unfold timedelta_range; lia).
  unfold Main.get_days_hours_minutes_seconds_from_timedelta. cbn [Main.days Main.seconds].
  destruct (fields_of_sum 0 h 0 s ltac:(lia) ltac:(lia) Hs) as [A1 [A2 [A3 A4]]].
  destruct (fields_of_sum 0 0 h s ltac:(lia) ltac:(lia) Hs) as [B1 [B2 [B3 B4]]].
  replace (86400 * 0 + 3600 * h + 60 * 0 + s) with (3600 * h + s) in * by lia.
  replace (86400 * 0 + 3600 * 0 + 60 * h + s) with (60 * h + s) in * by lia.
  rewrite A1, A2, A3, A4, B1, B2, B3, B4.
  rewrite time_label_hours_seconds by assumption. reflexivity.
Qed.

Lemma make_songlist_ambiguous_witness :
  Main.make_songlist [("song.mp3"%string, 1%Q, 3605)] = inr "01:05 - song"%string
  /\ Main.make_songlist [("song.mp3"%string, 1%Q, 65)] = inr "01:05 - song"%string.
Proof.
  pose proof (make_songlist_ambiguous "song.mp3"%string 1%Q 1%Q 1 5
                ltac:(lia) ltac:(lia)) as E.
  change (3600 * 1 + 5) with 3605 in E. change (60 * 1 + 5) with 65 in E.
  split; [rewrite E|]; vm_compute; reflexivity.
Defined.

(* ================================================================= *)
(** * Properties of [get_fingerprint] *)

Section GetFingerprint.

Import FingerprintFile.

Variable int : string -> result Z.

Lemma update_same (c : cache) (filename content : string) :
  update c filename content filename = Some content.
Proof. unfold update. rewrite String.eqb_refl. reflexivity. Qed.

Lemma update_other (c : cache) (filename content other : string) :
  other <> filename -> update c filename content other = c other.
Proof. intros H. unfold update. apply String.eqb_neq in H. rewrite H. reflexivity. Qed.

(** Once [get_fingerprint] has had the content of a file, from the cache or
    from the file, it answers every later call for that file from the cache
    alone: with any other state of the files the call returns the same
    result and leaves the cache as it is.  The entries of the other files
    are never touched, and a failure to open the file leaves the whole cache
    unchanged. *)
Theorem get_fingerprint_cached (read_file : string -> result string)
    (fpcalc_cache : cache) (filename : string) :
  let '(r, cache') := get_fingerprint read_file int fpcalc_cache filename in
  (forall other, other <> filename -> cache' other = fpcalc_cache other)
  /\ (forall e, fpcalc_cache filename = None -> read_file filename = inl e ->
                r = inl e /\ cache' = fpcalc_cache)
  /\ (fpcalc_cache filename <> None \/ (exists content, read_file filename = inr content) ->
      forall read_file', get_fingerprint read_file' int cache' filename = (r, cache')).
Proof.
  unfold get_fingerprint.
  destruct (fpcalc_cache filename) as [content|] eqn:C.
  - split; [reflexivity|]. split; [discriminate|].
    intros _ read_file'. rewrite C. reflexivity.
  - destruct (read_file filename) as [e|content] eqn:R.
    + split; [reflexivity|]. split; [intros e' _ E; inversion E; auto|].
      intros [H | [content H]]; [congruence | discriminate].
    + split; [intros other H; apply update_other; exact H|].
      split; [discriminate|].
      intros _ read_file'. rewrite update_same. reflexivity.
Qed.

(** As long as the cache only holds what the files hold, [get_fingerprint]
    returns what reading and parsing the file returns, and the cache keeps
    that property: during a scan that does not change the files the function
    behaves as a function of the file name. *)
Theorem get_fingerprint_agrees (read_file : string -> result string)
    (fpcalc_cache : cache) (filename : string) :
  agrees read_file fpcalc_cache ->
  let '(r, cache') := get_fingerprint read_file int fpcalc_cache filename in
  agrees read_file cache'
  /\ r = (content <- read_file filename ;; parse int content).
Proof.
  intros A. unfold get_fingerprint.
  destruct (fpcalc_cache filename) as [content|] eqn:C.
  - split; [exact A|]. rewrite (A filename content C). reflexivity.
  - destruct (read_file filename) as [e|content] eqn:R.
    + split; [exact A | reflexivity].
    + split; [|reflexivity].
      intros k v. unfold update. destruct (String.eqb_spec k filename) as [->|N].
      * intros E. inversion E; subst. exact R.
      * apply A.
Qed.

Lemma split_not_nil (sep : ascii) (s : string) : split sep s <> [].
Proof.
  induction s as [|c s IH]; simpl; [discriminate|].
  destruct (Ascii.eqb c sep); [discriminate|].
  destruct (split sep s); discriminate.
Qed.

Lemma map_raising_length {A B} (f : A -> result B) (l : list A) (l' : list B) :
  map_raising f l = inr l' -> List.length l' = List.length l.
Proof.
  revert l'; induction l as [|a l IH]; intros l' E; simpl in E.
  - inversion E. reflexivity.
  - destruct (f a) as [e|b]; cbn [bind] in E; [discriminate|].
    destruct (map_raising f l) as [e|bs]; cbn [bind] in E; [discriminate|].
    inversion E. simpl. rewrite (IH bs eq_refl). reflexivity.
Qed.

(** [get_fingerprint] never returns an empty fingerprint: splitting always
    yields at least one field, so a file without frames makes [int] raise on
    the empty field instead. *)
Theorem get_fingerprint_not_empty (read_file : string -> result string)
    (fpcalc_cache : cache) (filename : string) (fingerprints : list Z) :
  fst (get_fingerprint read_file int fpcalc_cache filename) = inr fingerprints ->
  fingerprints <> [].
Proof.
  assert (P : forall content, parse int content = inr fingerprints -> fingerprints <> []).
  { intros content E. unfold parse in E. apply map_raising_length in E.
    intros ->. simpl in E. symmetry in E. apply length_zero_iff_nil in E.
    exact (split_not_nil _ _ E). }
  unfold get_fingerprint.
  destruct (fpcalc_cache filename) as [content|]; [apply P|].
  destruct (read_file filename) as [e|content]; [discriminate | apply P].
Qed.

Lemma find_from_first (sub s : string) (k : nat) (i : Z) :
  occurs_at sub s k -> (forall j, (j < k)%nat -> ~ occurs_at sub s j) ->
  find_from sub s i = i + Z.of_nat k.
Proof.
  unfold occurs_at. revert s i; induction k as [|k IH]; intros s i Hk Hj.
  - cbn [drop] in Hk. destruct s; cbn [find_from]; rewrite Hk; lia.
  - assert (H0 : String.prefix sub s = false).
    { destruct (String.prefix sub s) eqn:P; [|reflexivity].
      exfalso. apply (Hj 0%nat); [lia | exact P]. }
    destruct s as [|c s].
    + cbn [drop] in Hk. congruence.
    + cbn [find_from]. rewrite H0. cbn [drop] in Hk. rewrite IH.
      * lia.
      * exact Hk.
      * intros j Hlt. apply (Hj (S j)). lia.
Qed.

Lemma find_from_none (sub s : string) (i : Z) :
  (forall k, ~ occurs_at sub s k) -> find_from sub s i = -1.
Proof.
  unfold occurs_at. revert i; induction s as [|c s IH]; intros i H.
  - cbn [find_from]. destruct (String.prefix sub "") eqn:P; [|reflexivity].
    exfalso. apply (H 0%nat). exact P.
  - cbn [find_from]. destruct (String.prefix sub (String c s)) eqn:P.
    + exfalso. apply (H 0%nat). exact P.
    + apply IH. intros k. apply (H (S k)).
Qed.

(** When the file content contains [FINGERPRINT=], the frames are the
    comma-separated fields that follow its first occurrence, up to the end
    of the content.  When it does not, nothing is raised: [find] returns -1
    and the fields are read from the twelfth character of the content on. *)
Theorem parse_marker (content : string) :
  (forall k, occurs_at "FINGERPRINT=" content k ->
             (forall j, (j < k)%nat -> ~ occurs_at "FINGERPRINT=" content j) ->
             parse int content = map_raising int (split "," (drop (k + 12) content)))
  /\ ((forall k, ~ occurs_at "FINGERPRINT=" content k) ->
      parse int content = map_raising int (split "," (drop 11 content))).
Proof.
  split.
  - intros k Hk Hj. unfold parse, find.
    rewrite (find_from_first _ _ k 0 Hk Hj).
    replace (Z.to_nat (0 + Z.of_nat k + 12)) with (k + 12)%nat by lia. reflexivity.
  - intros H. unfold parse, find. rewrite (find_from_none _ _ 0 H). reflexivity.
Qed.

End GetFingerprint.

Lemma get_fingerprint_cached_witness :
  let '(r, cache') :=
    FingerprintFile.get_fingerprint (fun _ => inr "FINGERPRINT=1,2"%string)
      (fun _ => inr 7) FingerprintFile.empty_cache "a.fpcalc" in
  r = inr [7; 7]
  /\ forall read_file',
       FingerprintFile.get_fingerprint read_file' (fun _ => inr 7) cache' "a.fpcalc"
       = (r, cache').
Proof.
  generalize (get_fingerprint_cached (fun _ => inr 7)
                (fun _ => inr "FINGERPRINT=1,2"%string)
                FingerprintFile.empty_cache "a.fpcalc"%string).
  destruct (FingerprintFile.get_fingerprint (fun _ => inr "FINGERPRINT=1,2"%string)
              (fun _ => inr 7) FingerprintFile.empty_cache "a.fpcalc") as [r cache'] eqn:E.
  intros [_ [_ H]]. split.
  - vm_compute in E. congruence.
  - apply H. right. eexists. reflexivity.
Defined.

Lemma get_fingerprint_agrees_witness :
  FingerprintFile.agrees (fun _ => inr "FINGERPRINT=1,2"%string)
    (snd (FingerprintFile.get_fingerprint (fun _ => inr "FINGERPRINT=1,2"%string)
            (fun _ => inr 7) FingerprintFile.empty_cache "a.fpcalc")).
Proof.
  pose proof (get_fingerprint_agrees (fun _ => inr 7)
                (fun _ => inr "FINGERPRINT=1,2"%string)
                FingerprintFile.empty_cache "a.fpcalc"%string
                ltac:(intros k v E; discriminate)) as H.
  destruct (FingerprintFile.get_fingerprint (fun _ => inr "FINGERPRINT=1,2"%string)
              (fun _ => inr 7) FingerprintFile.empty_cache "a.fpcalc") as [r cache'].
  exact (proj1 H).
Defined.

Lemma get_fingerprint_not_empty_witness :
  exists fingerprints,
    fst (FingerprintFile.get_fingerprint (fun _ => inr "FINGERPRINT=1,2"%string)
           (fun _ => inr 7) FingerprintFile.empty_cache "a.fpcalc") = inr fingerprints
    /\ fingerprints <> [].
Proof.
  eexists. split; [vm_compute; reflexivity|].
  apply (get_fingerprint_not_empty (fun _ => inr 7)
           (fun _ => inr "FINGERPRINT=1,2"%string)
           FingerprintFile.empty_cache "a.fpcalc"%string).
  vm_compute. reflexivity.
Defined.

Lemma parse_marker_witness :
  FingerprintFile.parse (fun s => inr (Z.of_nat (String.length s)))
    "DURATION=3 FINGERPRINT=10,200,3"
  = inr [2; 3; 1]
  /\ FingerprintFile.parse (fun s => inr (Z.of_nat (String.length s)))
       "0123456789A22,3"
     = inr [2; 1].
Proof.
  split.
  - rewrite (proj1 (parse_marker (fun s => inr (Z.of_nat (String.length s)))
                      "DURATION=3 FINGERPRINT=10,200,3"%string) 11%nat).
    + vm_compute. reflexivity.
    + vm_compute. reflexivity.
    + intros j Hj.
      do 11 (destruct j as [|j]; [vm_compute; discriminate|]). lia.
  - rewrite (proj2 (parse_marker (fun s => inr (Z.of_nat (String.length s)))
                      "0123456789A22,3"%string)).
    + vm_compute. reflexivity.
    + intros k.
      do 22 (destruct k as [|k]; [vm_compute; discriminate|]).
      vm_compute. discriminate.
Defined.
